(** * Conversation engine of llm-utilities: a shallow embedding

    The development follows [src/src/base.py] (ConversationNode,
    ToolHandler, Mailbox, Bot) and [src/src/anthropic_bots.py]
    (AnthropicToolHandler, AnthropicMailbox).  Python objects live in an
    explicit store; a reference to a node is its index in the store.
    Nodes are those of the base class [ConversationNode]; the subclass
    [AnthropicNode] differs in appending its keyword arguments to the
    content instead of keeping them as attributes.
    Exceptions are values of [exn]; loops that Python writes with [while]
    take a fuel argument and every result theorem shows that the fuel
    handed over is enough. *)

From Stdlib Require Import ZArith Ascii String.
From stdpp Require Import gmap strings list fin_maps pretty.

Set Warnings "-register-all".

Local Open Scope string_scope.
Local Open Scope list_scope.
Local Open Scope stdpp_scope.

(** ** Python values *)

(** The plain data that travels through node contents, keyword
    arguments and persisted records.  [VCallable] stands for any value
    for which Python's [callable] answers true, [VObj] for any other
    object, known by its [str()]. *)
Inductive value : Type :=
| VNone
| VBool (b : bool)
| VInt (z : Z)
| VStr (s : string)
| VList (l : list value)
| VDict (kv : list (string * value))
| VCallable (name : string)
| VObj (repr : string).

(** Exceptions the modelled code can raise. *)
Inductive api_error : Type :=
| InternalServerError
| RateLimitError
| OtherApiError (cls : string).

Inductive exn : Type :=
| AttributeError (what : string)
| KeyError (key : string)
| TypeError (what : string)
| ValueError (msg : string)
| ApiError (e : api_error)
| ToolRaised (tool : string) (msg : string)
| Exception (msg : string).

Inductive result (A : Type) : Type :=
| Ok (a : A)
| Raise (e : exn).
Arguments Ok {A} a.
Arguments Raise {A} e.

Definition callable (v : value) : bool :=
  match v with VCallable _ => true | _ => false end.

(** [d[k]] on a dict literal kept as an association list. *)
Fixpoint dict_get (k : string) (kv : list (string * value)) : option value :=
  match kv with
  | [] => None
  | (k', v) :: rest => if String.eqb k k' then Some v else dict_get k rest
  end.

(** [d[k] = v]: overwrite in place, or append a new key. *)
Fixpoint dict_set (k : string) (v : value) (kv : list (string * value))
  : list (string * value) :=
  match kv with
  | [] => [(k, v)]
  | (k', v') :: rest =>
      if String.eqb k k' then (k, v) :: rest else (k', v') :: dict_set k v rest
  end.

(** [str.startswith('_')] *)
Definition startswith_underscore (k : string) : bool :=
  match k with
  | String c _ => Ascii.eqb c "_"%char
  | EmptyString => false
  end.

(** ** ConversationNode ([base.py], lines 65-156) *)

Module CN.

Record node : Type := mkNode {
  role : value;
  content : value;
  attrs : gmap string value;
  replies : list nat;
  parent : option nat
}.

(** The store of all node objects; a reference is an index. *)
Abbreviation store := (list node).

(** One [{'role': ..., 'content': ...}] entry of a linearized history. *)
Record message : Type := mkMessage {
  msg_role : value;
  msg_content : value
}.

Definition set_replies (n : node) (rs : list nat) : node :=
  mkNode (role n) (content n) (attrs n) rs (parent n).
Definition set_parent (n : node) (p : option nat) : node :=
  mkNode (role n) (content n) (attrs n) (replies n) p.
Definition set_content (n : node) (c : value) : node :=
  mkNode (role n) c (attrs n) (replies n) (parent n).

(** Names that [__init__] assigns itself after the [setattr] loop, so a
    keyword argument of that name never survives as an extra
    attribute ([role] and [content] are bound to the parameters). *)
Definition core_name (k : string) : bool :=
  String.eqb k "role" || String.eqb k "content"
  || String.eqb k "replies" || String.eqb k "parent".

Definition extras (kwargs : gmap string value) : gmap string value :=
  filter (fun kv => core_name kv.1 = false) kwargs.

(** [__init__(self, content, role, **kwargs)] run on an object whose
    extra attributes so far are [old] (empty for a fresh object): the
    keyword arguments are set, then role, content, replies and parent
    are assigned; attributes set earlier are not removed. *)
Definition init (old : gmap string value) (c : value) (r : value)
                (kwargs : gmap string value) : node :=
  mkNode r c (extras kwargs ∪ old) [] None.

Definition create_empty : node := init ∅ (VStr "") (VStr "empty") ∅.

Definition is_empty (n : node) : bool :=
  match role n with VStr s => String.eqb s "empty" | _ => false end &&
  match content n with VStr s => String.eqb s "" | _ => false end.

(** [add_reply(self, **kwargs)]: returns the new store and the node
    returned by the call.  [None] only for a dangling reference. *)
Definition add_reply (st : store) (self : nat) (c : value) (r : value)
                     (kwargs : gmap string value) : option (store * nat) :=
  match st !! self with
  | None => None
  | Some n =>
      if is_empty n then
        Some (<[self := init (attrs n) c r kwargs]> st, self)
      else
        let reply := length st in
        let st1 := st ++ [set_parent (init ∅ c r kwargs) (Some self)] in
        Some (<[self := set_replies n (replies n ++ [reply])]> st1, reply)
  end.

(** [find_root]: follow [parent] until it is None. *)
Fixpoint find_root (fuel : nat) (st : store) (current : nat) : option nat :=
  match fuel with
  | O => None
  | S f =>
      match st !! current with
      | None => None
      | Some n =>
          match parent n with
          | None => Some current
          | Some p => find_root f st p
          end
      end
  end.

Definition entry (n : node) : message := mkMessage (role n) (content n).

(** The [while node:] loop of [build_messages]. *)
Fixpoint walk (fuel : nat) (st : store) (nd : option nat)
              (conversation_dict : list message) : option (list message) :=
  match nd with
  | None => Some conversation_dict
  | Some i =>
      match fuel with
      | O => None
      | S f =>
          match st !! i with
          | None => None
          | Some n => walk f st (parent n) ([entry n] ++ conversation_dict)
          end
      end
  end.

Definition build_messages (fuel : nat) (st : store) (self : nat)
  : option (list message) :=
  match st !! self with
  | None => None
  | Some n => if is_empty n then Some [] else walk fuel st (Some self) []
  end.

(** Number of parent links between a node and its root. *)
Fixpoint depth (fuel : nat) (st : store) (i : nat) : option nat :=
  match fuel with
  | O => None
  | S f =>
      match st !! i with
      | None => None
      | Some n =>
          match parent n with
          | None => Some 0
          | Some p => S <$> depth f st p
          end
      end
  end.

(** A sequence of [add_reply] calls; each names the node it is called
    on, and the node it returns becomes the current one. *)
Record reply_call : Type := mkCall {
  rc_target : nat;
  rc_content : value;
  rc_role : value;
  rc_kwargs : gmap string value
}.

Fixpoint run (calls : list reply_call) (st : store) (cur : nat)
  : option (store * nat) :=
  match calls with
  | [] => Some (st, cur)
  | c :: rest =>
      match add_reply st (rc_target c) (rc_content c) (rc_role c) (rc_kwargs c) with
      | None => None
      | Some (st', cur') => run rest st' cur'
      end
  end.

(** The same, but every call is made on the current node, the way
    [Bot] drives its conversation. *)
Fixpoint run_current (calls : list (value * value * gmap string value))
                     (st : store) (cur : nat) : option (store * nat) :=
  match calls with
  | [] => Some (st, cur)
  | (c, r, kw) :: rest =>
      match add_reply st cur c r kw with
      | None => None
      | Some (st', cur') => run_current rest st' cur'
      end
  end.

(** The path from a root down to a node, read off the parent links. *)
Inductive root_path (st : store) : list nat -> nat -> Prop :=
| root_path_root i n :
    st !! i = Some n -> parent n = None -> root_path st [i] i
| root_path_step p path i n :
    root_path st path p -> st !! i = Some n -> parent n = Some p ->
    root_path st (path ++ [i]) i.

(** The entries of the nodes named by a list of references. *)
Definition entries (st : store) (path : list nat) : list message :=
  omap (fun i => entry <$> st !! i) path.

(** *** Serialization ([root_dict], [from_dict]) *)

(** The persisted record of a node: its data items and, when the node
    has replies, the list stored under the key 'replies'. *)
Inductive pdict : Type :=
| PDict (items : gmap string value) (reply_dicts : option (list pdict)).

(** The instance attributes of a node other than parent and replies. *)
Definition data_attributes (n : node) : gmap string value :=
  <["role" := role n]> (<["content" := content n]> (attrs n)).

(** The test of [_to_dict_self] on one attribute. *)
Definition persisted (k : string) (v : value) : bool :=
  negb (startswith_underscore k) && negb (callable v).

Definition _to_dict_self (n : node) : gmap string value :=
  filter (fun kv => persisted kv.1 kv.2 = true)
         (delete "parent" (delete "replies" (data_attributes n))).

Fixpoint _to_dict_recursive (fuel : nat) (st : store) (self : nat)
  : option pdict :=
  match fuel with
  | O => None
  | S f =>
      match st !! self with
      | None => None
      | Some n =>
          match replies n with
          | [] => Some (PDict (_to_dict_self n) None)
          | _ :: _ =>
              match mapM (_to_dict_recursive f st) (replies n) with
              | None => None
              | Some ds => Some (PDict (_to_dict_self n) (Some ds))
              end
          end
      end
  end.

Definition root_dict (fuel : nat) (st : store) (self : nat) : option pdict :=
  match find_root fuel st self with
  | None => None
  | Some root => _to_dict_recursive fuel st root
  end.

(** [from_dict]: the node is created first, then each reply is built,
    given its parent and appended, in the order of the list. *)
Fixpoint from_dict (data : pdict) (st : store) {struct data}
  : result (store * nat) :=
  match data with
  | PDict items reply_dicts =>
      match items !! "content", items !! "role" with
      | Some c, Some r =>
          let self := length st in
          let fix hydrate (ds : list pdict) (st : store) : result store :=
            match ds with
            | [] => Ok st
            | reply_data :: ds' =>
                match from_dict reply_data st with
                | Raise e => Raise e
                | Ok (st1, reply_node) =>
                    let st2 := alter (fun m => set_parent m (Some self))
                                     reply_node st1 in
                    let st3 := alter (fun m => set_replies m (replies m ++ [reply_node]))
                                     self st2 in
                    hydrate ds' st3
                end
            end in
          let node := init ∅ c r items in
          match reply_dicts with
          | None => Ok (st ++ [node], self)
          | Some ds =>
              match hydrate ds (st ++ [node]) with
              | Raise e => Raise e
              | Ok st' => Ok (st', self)
              end
          end
      | _, _ => Raise (TypeError "__init__() missing a required argument")
      end
  end.

(** The tree hanging from a node, read through the reply lists. *)
Inductive tree : Type :=
| Tree (r c : value) (a : gmap string value) (kids : list tree).

Fixpoint tree_of (fuel : nat) (st : store) (i : nat) : option tree :=
  match fuel with
  | O => None
  | S f =>
      match st !! i with
      | None => None
      | Some n =>
          match mapM (tree_of f st) (replies n) with
          | None => None
          | Some kids => Some (Tree (role n) (content n) (attrs n) kids)
          end
      end
  end.

(** The same tree with only the extra attributes that are persisted:
    public name, value not callable. *)
Fixpoint plain (t : tree) : tree :=
  match t with
  | Tree r c a kids =>
      Tree r c (filter (fun kv => persisted kv.1 kv.2 = true) a) (map plain kids)
  end.

(** [tree_of] that also checks the back-references: the node's parent is
    [p] and every reply has the node itself as parent. *)
Fixpoint linked (fuel : nat) (st : store) (i : nat) (p : option nat)
  : option tree :=
  match fuel with
  | O => None
  | S f =>
      match st !! i with
      | None => None
      | Some n =>
          if decide (parent n = p) then
            match mapM (fun c => linked f st c (Some i)) (replies n) with
            | None => None
            | Some kids => Some (Tree (role n) (content n) (attrs n) kids)
            end
          else None
      end
  end.


(** The shape of a store that [add_reply] and [from_dict] produce:
    replies are younger objects of the store, parents are older ones,
    role and content are data, and no extra attribute carries one of the
    names [__init__] assigns itself. *)
Definition node_ok (len i : nat) (n : node) : bool :=
  forallb (fun c => Nat.ltb i c && Nat.ltb c len) (replies n)
  && match parent n with None => true | Some p => Nat.ltb p i end
  && negb (callable (role n)) && negb (callable (content n))
  && forallb (fun k => bool_decide (attrs n !! k = None))
             ["role"; "content"; "replies"; "parent"].

Definition well_formed (st : store) : bool :=
  forallb (fun '(i, n) => node_ok (length st) i n) (imap pair st).

End CN.

(** ** Strings: [str.strip] *)

(** Characters are code points below 256; [isspace] lists the ones for
    which Python's [str.isspace] answers true. *)
Definition isspace (c : ascii) : bool :=
  let n := nat_of_ascii c in
  (Nat.leb 9 n && Nat.leb n 13) || (Nat.leb 28 n && Nat.leb n 32)
  || Nat.eqb n 133 || Nat.eqb n 160.

Fixpoint all_space (s : string) : bool :=
  match s with
  | EmptyString => true
  | String c s' => isspace c && all_space s'
  end.

Fixpoint lstrip (s : string) : string :=
  match s with
  | EmptyString => EmptyString
  | String c s' => if isspace c then lstrip s' else s
  end.

Fixpoint rstrip (s : string) : string :=
  match s with
  | EmptyString => EmptyString
  | String c s' => if all_space s then EmptyString else String c (rstrip s')
  end.

Definition strip (s : string) : string := rstrip (lstrip s).

(** ** AnthropicMailbox: content merge ([anthropic_bots.py], lines 154-171) *)

Module Merge.

(** [{'type': 'text', 'text': s}] *)
Definition text_segment (s : string) : value :=
  VDict [("type", VStr "text"); ("text", VStr s)].

(** [v[k]] for a string key. *)
Definition subscript (v : value) (k : string) : result value :=
  match v with
  | VDict kv =>
      match dict_get k kv with
      | Some x => Ok x
      | None => Raise (KeyError k)
      end
  | _ => Raise (TypeError "object is not subscriptable")
  end.

(** [v == 'text'] *)
Definition is_text (v : value) : bool :=
  match v with VStr s => String.eqb s "text" | _ => false end.

(** [a + b] where at least one side is known to be a str. *)
Definition str_add (a b : value) : result string :=
  match a, b with
  | VStr x, VStr y => Ok (x +:+ y)
  | _, _ => Raise (TypeError "can only concatenate str to str")
  end.

(** [l[-1]] and the elements before it. *)
Fixpoint split_last (l : list value) : option (list value * value) :=
  match l with
  | [] => None
  | x :: rest =>
      match split_last rest with
      | None => Some ([], x)
      | Some (front, last) => Some (x :: front, last)
      end
  end.

Definition merge_content (existing_content new_content : value) : result value :=
  match existing_content, new_content with
  | VStr e, VStr n => Ok (VStr (strip (e +:+ n)))
  | VStr e, VList n =>
      match n with
      | [] => Ok (VList ([text_segment (strip e)] ++ n))
      | first :: rest =>
          match subscript first "type" with
          | Raise x => Raise x
          | Ok ty =>
              if is_text ty then
                match subscript first "text" with
                | Raise x => Raise x
                | Ok t =>
                    match str_add (VStr e) t with
                    | Raise x => Raise x
                    | Ok joined => Ok (VList ([text_segment (strip joined)] ++ rest))
                    end
                end
              else Ok (VList ([text_segment (strip e)] ++ n))
          end
      end
  | VList e, VList n => Ok (VList n)
  | VList e, VStr n =>
      match split_last e with
      | None => Ok (VList (e ++ [text_segment (strip n)]))
      | Some (front, last) =>
          match subscript last "type" with
          | Raise x => Raise x
          | Ok ty =>
              if is_text ty then
                match subscript last "text" with
                | Raise x => Raise x
                | Ok t =>
                    match str_add t (VStr n), last with
                    | Ok joined, VDict kv =>
                        Ok (VList (front ++ [VDict (dict_set "text" (VStr (strip joined)) kv)]))
                    | Raise x, _ => Raise x
                    | Ok _, _ => Raise (TypeError "object does not support item assignment")
                    end
                end
              else Ok (VList (e ++ [text_segment (strip n)]))
          end
      end
  | _, _ => Raise (ValueError "Unexpected content types")
  end.






(** A recognized segment: a dict with a 'type', and a str 'text' when the
    type is 'text'. *)
Definition segment_ok (seg : value) : bool :=
  match seg with
  | VDict kv =>
      match dict_get "type" kv with
      | Some ty =>
          if is_text ty then
            match dict_get "text" kv with Some (VStr _) => true | _ => false end
          else true
      | None => false
      end
  | _ => false
  end.



End Merge.

(** ** ToolHandler ([base.py], lines 159-309) and AnthropicToolHandler *)

Module TH.

(** A content block of a provider response. *)
Inductive block : Type :=
| TextBlock (text : string)
| ToolUseBlock (id : string) (name : string) (input : list (string * value))
| OtherBlock (type : string).

Section WithWorld.

(** Tools are side-effecting callables: they act on a world [W], and
    either return a value or raise. *)
Context {W : Type}.

Definition tool : Type := list (string * value) -> W -> result value * W.

Record handler : Type := mkHandler {
  tools : list value;
  function_map : gmap string tool;
  requests : list value;
  results : list value
}.

Definition clear (h : handler) : handler :=
  mkHandler (tools h) (function_map h) [] [].

Definition add_request (h : handler) (request : value) : handler :=
  mkHandler (tools h) (function_map h) (requests h ++ [request]) (results h).

Definition add_result (h : handler) (r : value) : handler :=
  mkHandler (tools h) (function_map h) (requests h) (results h ++ [r]).

(** [AnthropicToolHandler.generate_request_schema] *)
Fixpoint generate_request_schema (response_content : list block) : list value :=
  match response_content with
  | [] => []
  | ToolUseBlock id name input :: rest =>
      VDict [("type", VStr "tool_use"); ("id", VStr id);
             ("name", VStr name); ("input", VDict input)]
      :: generate_request_schema rest
  | _ :: rest => generate_request_schema rest
  end.

(** [AnthropicToolHandler.tool_name_and_input] *)
Definition tool_name_and_input (request_schema : value)
  : result (value * value) :=
  match Merge.subscript request_schema "name" with
  | Raise e => Raise e
  | Ok tool_name =>
      match Merge.subscript request_schema "input" with
      | Raise e => Raise e
      | Ok tool_input => Ok (tool_name, tool_input)
      end
  end.

(** [request.get("id", "unknown id")] *)
Definition request_id (request : value) : value :=
  match request with
  | VDict kv => default (VStr "unknown id") (dict_get "id" kv)
  | _ => VStr "unknown id"
  end.

(** [AnthropicToolHandler.generate_response_schema] *)
Definition generate_response_schema (request : value) (tool_output_kwargs : value)
  : value :=
  VDict [("type", VStr "tool_result");
         ("tool_use_id", request_id request);
         ("content", tool_output_kwargs)].

(** [self.function_map[tool_name]] called with [input_kwargs] unpacked as
    keyword arguments. *)
Definition call_tool (h : handler) (tool_name input_kwargs : value) (w : W)
  : result value * W :=
  match tool_name with
  | VStr name =>
      match function_map h !! name with
      | None => (Raise (KeyError name), w)
      | Some f =>
          match input_kwargs with
          | VDict kwargs => f kwargs w
          | _ => (Raise (TypeError "argument after ** must be a mapping"), w)
          end
      end
  | _ => (Raise (TypeError "unhashable or unknown key"), w)
  end.

(** The [for request_schema in requests] loop of [handle_response]. *)
Fixpoint dispatch_loop (reqs : list value) (h : handler) (w : W)
  : result unit * handler * W :=
  match reqs with
  | [] => (Ok tt, h, w)
  | request_schema :: rest =>
      match tool_name_and_input request_schema with
      | Raise e => (Raise e, h, w)
      | Ok (tool_name, input_kwargs) =>
          match call_tool h tool_name input_kwargs w with
          | (Raise e, w') => (Raise e, h, w')
          | (Ok output_kwargs, w') =>
              let response_schema :=
                generate_response_schema request_schema output_kwargs in
              dispatch_loop rest
                (add_result (add_request h request_schema) response_schema) w'
          end
      end
  end.

Definition handle_response (h : handler) (response_content : list block) (w : W)
  : result (list value * list value) * handler * W :=
  let h0 := clear h in
  let reqs := generate_request_schema response_content in
  match dispatch_loop reqs h0 w with
  | (Raise e, h', w') => (Raise e, h', w')
  | (Ok _, h', w') => (Ok (requests h', results h'), h', w')
  end.

(** What running a batch of requests in order means, told without the
    handler's buffers: the results produced, the world reached, and the
    exception that stopped the batch, if any. *)
Inductive executes (fm : gmap string tool)
  : list value -> W -> list value -> W -> option exn -> Prop :=
| executes_done w :
    executes fm [] w [] w None
| executes_unknown id name input rest w :
    fm !! name = None ->
    executes fm (VDict [("type", VStr "tool_use"); ("id", VStr id);
                        ("name", VStr name); ("input", VDict input)] :: rest)
             w [] w (Some (KeyError name))
| executes_raised id name input rest w f e w' :
    fm !! name = Some f -> f input w = (Raise e, w') ->
    executes fm (VDict [("type", VStr "tool_use"); ("id", VStr id);
                        ("name", VStr name); ("input", VDict input)] :: rest)
             w [] w' (Some e)
| executes_next id name input rest w f out w1 rs w2 stop :
    fm !! name = Some f -> f input w = (Ok out, w1) ->
    executes fm rest w1 rs w2 stop ->
    executes fm (VDict [("type", VStr "tool_use"); ("id", VStr id);
                        ("name", VStr name); ("input", VDict input)] :: rest)
             w
             (VDict [("type", VStr "tool_result"); ("tool_use_id", VStr id);
                     ("content", out)] :: rs)
             w2 stop.

End WithWorld.

Arguments tool : clear implicits.
Arguments handler : clear implicits.

End TH.

(** ** AnthropicMailbox: building and sending the payload
    ([anthropic_bots.py], lines 83-152) *)

Module AM.

(** The keyword arguments of [client.messages.create]. *)
Record create_dict : Type := mkCreate {
  cd_model : value;
  cd_max_tokens : value;
  cd_temperature : value;
  cd_messages : list CN.message;
  cd_system : option string;
  cd_tools : option (list value)
}.

Section Payload.
Context {W : Type}.

(** [if isinstance(c, str): c = [{'type': 'text', 'text': c}]] *)
Definition as_segments (c : value) : value :=
  match c with
  | VStr s => VList [Merge.text_segment s]
  | _ => c
  end.

(** Lines 98-101: the pending requests go to the end of the parent's
    content. *)
Definition splice_requests (st : CN.store) (conversation : nat)
                           (pending : list value) : result CN.store :=
  match pending with
  | [] => Ok st
  | _ :: _ =>
      match st !! conversation with
      | None => Raise (AttributeError "conversation")
      | Some n =>
          match CN.parent n with
          | None => Raise (AttributeError "'NoneType' object has no attribute 'content'")
          | Some p =>
              match st !! p with
              | None => Raise (AttributeError "parent")
              | Some pn =>
                  match as_segments (CN.content pn) with
                  | VList l =>
                      Ok (<[p := CN.set_content pn (VList (l ++ pending))]> st)
                  | _ => Raise (AttributeError "object has no attribute 'extend'")
                  end
              end
          end
      end
  end.

(** Lines 103-106: the pending results go in front of the node's own
    content. *)
Definition splice_results (st : CN.store) (conversation : nat)
                          (pending : list value) : result CN.store :=
  match pending with
  | [] => Ok st
  | _ :: _ =>
      match st !! conversation with
      | None => Raise (AttributeError "conversation")
      | Some n =>
          match as_segments (CN.content n) with
          | VList l =>
              Ok (<[conversation := CN.set_content n (VList (pending ++ l))]> st)
          | _ => Raise (TypeError "can only concatenate list to list")
          end
      end
  end.

(** Lines 98-133 of [_send_message_implementation]: splice, clear, build
    the messages and the payload.  The outer [option] is [None] only
    when [fuel] does not cover the walk to the root. *)
Definition build_payload (fuel : nat) (st : CN.store)
    (tool_handler : option (TH.handler W)) (conversation : nat)
    (model max_tokens temperature : value) (system_message : option string)
  : option (result create_dict * CN.store * option (TH.handler W)) :=
  let pending_requests :=
    match tool_handler with Some h => TH.requests h | None => [] end in
  match splice_requests st conversation pending_requests with
  | Raise e => Some (Raise e, st, tool_handler)
  | Ok st1 =>
      let pending_results :=
        match tool_handler with Some h => TH.results h | None => [] end in
      match splice_results st1 conversation pending_results with
      | Raise e => Some (Raise e, st1, tool_handler)
      | Ok st2 =>
          let tool_handler' := TH.clear <$> tool_handler in
          let tools :=
            match tool_handler' with
            | Some h => match TH.tools h with [] => None | ts => Some ts end
            | None => None
            end in
          match CN.build_messages fuel st2 conversation with
          | None => None
          | Some messages =>
              let system :=
                match system_message with
                | Some "" => None
                | other => other
                end in
              Some (Ok (mkCreate model max_tokens temperature messages system tools),
                    st2, tool_handler')
          end
      end
  end.

(** Whether a request or result dict sits in the content of some message
    of a payload. *)
Definition embedded (x : value) (payload : create_dict) : Prop :=
  exists i m l,
    cd_messages payload !! i = Some m /\
    CN.msg_content m = VList l /\ x ∈ l.

End Payload.

(** *** The retry loop (lines 135-152) *)

Section Retry.
Context {R : Type}.

Definition max_retries : nat := 25.
Definition base_delay : Z := 1.

(** The exception classes the [except] clause catches. *)
Definition transient (e : exn) : bool :=
  match e with
  | ApiError InternalServerError | ApiError RateLimitError => true
  | _ => false
  end.

(** What the loop leaves behind besides its result: the calls made, the
    sleeps taken (the part [base_delay * 2 ** attempt] of each delay, the
    random jitter in [0, 1] left out), and the payload printed by the
    debug block. *)
Record trace : Type := mkTrace {
  attempts : nat;
  delays : list Z;
  debug_printed : option create_dict
}.

(** [for attempt in ...] over the attempts that remain; [create] is the
    provider's answer to each numbered call. *)
Fixpoint retry_loop (create : nat -> create_dict -> result R)
    (payload : create_dict) (remaining : list nat) (tr : trace)
  : result R * trace :=
  match remaining with
  | [] => (Raise (Exception "Max retries reached. Unable to send message."), tr)
  | attempt :: rest =>
      let tr1 := mkTrace (S (attempts tr)) (delays tr) (debug_printed tr) in
      match create attempt payload with
      | Ok response => (Ok response, tr1)
      | Raise e =>
          if transient e then
            if Nat.eqb attempt (max_retries - 1) then
              (Raise e, mkTrace (attempts tr1) (delays tr1) (Some payload))
            else
              retry_loop create payload rest
                (mkTrace (attempts tr1)
                         (delays tr1 ++ [(base_delay * 2 ^ Z.of_nat attempt)%Z])
                         (debug_printed tr1))
          else (Raise e, tr1)
      end
  end.

Definition send_with_retry (create : nat -> create_dict -> result R)
    (payload : create_dict) : result R * trace :=
  retry_loop create payload (seq 0 max_retries) (mkTrace 0 [] None).

End Retry.

End AM.

(** ** Mailbox.send_message and Bot ([base.py], lines 312-554) *)

Module Bot.

(** One block appended to the mailbox log file (timestamps left out). *)
Inductive log_entry : Type :=
| OUTGOING (messages : list CN.message)
| INCOMING (text : string) (role : value) (extra_data : gmap string value).

Section WithTransport.

(** [W] is the world the tools act on, [X] whatever state the concrete
    mailbox and its provider keep. *)
Context {W X : Type}.

(** A bot together with the objects it reaches: the node store, the
    mailbox log and the mailbox state.  [others] holds the instance
    attributes set outside [__init__] (for instance [tool_path]). *)
Record bot : Type := mkBot {
  api_key : value;
  name : string;
  model_engine : string;
  max_tokens : value;
  temperature : value;
  role : string;
  role_description : string;
  system_message : string;
  conversation : option nat;
  tool_handler : option (TH.handler W);
  others : gmap string value;
  bot_class : string;
  st : CN.store;
  log : list log_entry;
  mailbox_state : X
}.

Definition with_tree (b : bot) (st' : CN.store) (c : option nat) : bot :=
  mkBot (api_key b) (name b) (model_engine b) (max_tokens b) (temperature b)
        (role b) (role_description b) (system_message b) c (tool_handler b)
        (others b) (bot_class b) st' (log b) (mailbox_state b).

Definition with_log (b : bot) (l : list log_entry) : bot :=
  mkBot (api_key b) (name b) (model_engine b) (max_tokens b) (temperature b)
        (role b) (role_description b) (system_message b) (conversation b)
        (tool_handler b) (others b) (bot_class b) (st b) l (mailbox_state b).

Definition with_api_key (b : bot) (k : value) : bot :=
  mkBot k (name b) (model_engine b) (max_tokens b) (temperature b)
        (role b) (role_description b) (system_message b) (conversation b)
        (tool_handler b) (others b) (bot_class b) (st b) (log b) (mailbox_state b).

(** Computations on a bot that may raise; the outer [option] is [None]
    only when a loop runs out of fuel or a reference dangles. *)
Definition M (A : Type) : Type := bot -> option (result A * bot).

Definition ret {A} (a : A) : M A := fun b => Some (Ok a, b).
Definition raise {A} (e : exn) : M A := fun b => Some (Raise e, b).
Definition bind {A B} (m : M A) (k : A -> M B) : M B :=
  fun b =>
    match m b with
    | None => None
    | Some (Raise e, b') => Some (Raise e, b')
    | Some (Ok a, b') => k a b'
    end.

#[local] Instance M_bind : MBind M := fun A B k m => bind m k.
#[local] Instance M_ret : MRet M := fun A a => ret a.

(** The two abstract methods of [Mailbox], taken together: send the
    bot's conversation and normalize the reply to
    (text, role, extra data). *)
Definition transport : Type :=
  bot -> result (string * value * gmap string value) * bot.

(** [Mailbox.send_message] *)
Definition send_message (tr : transport) : M (string * value * gmap string value) :=
  fun b =>
    match conversation b with
    | None => Some (Raise (AttributeError "'NoneType' object has no attribute 'build_messages'"), b)
    | Some c =>
        match CN.build_messages (length (st b)) (st b) c with
        | None => None
        | Some messages =>
            let b1 := with_log b (log b ++ [OUTGOING messages]) in
            match tr b1 with
            | (Raise e, b2) => Some (Raise e, b2)
            | (Ok (text, r, extra), b2) =>
                Some (Ok (text, r, extra),
                      with_log b2 (log b2 ++ [INCOMING text r extra]))
            end
        end
    end.

(** [self.conversation = self.conversation.add_reply(content=c, role=r, **kw)] *)
Definition conversation_add_reply (c : value) (r : value)
                                  (kw : gmap string value) : M unit :=
  fun b =>
    match conversation b with
    | None => Some (Raise (AttributeError "'NoneType' object has no attribute 'add_reply'"), b)
    | Some cur =>
        if bool_decide (is_Some (kw !! "content") \/ is_Some (kw !! "role")) then
          Some (Raise (TypeError "got multiple values for keyword argument"), b)
        else
          match CN.add_reply (st b) cur c r kw with
          | None => None
          | Some (st', new) => Some (Ok tt, with_tree b st' (Some new))
          end
    end.

(** [Bot._cvsn_respond] *)
Definition _cvsn_respond (tr : transport) (text : option string) (r : value)
  : M string :=
  fun b =>
    match conversation b, text with
    | None, None =>
        Some (Raise (ValueError "Invalid: both text and conversation are None"), b)
    | _, _ =>
        (_ ← match text with
             | Some t => conversation_add_reply (VStr t) r ∅
             | None => ret tt
             end;
         '(response_text, response_role, extra_data) ← send_message tr;
         _ ← conversation_add_reply (VStr response_text) response_role extra_data;
         ret response_text) b
    end.

(** Python truth value of a plain value. *)
Definition truthy (v : value) : bool :=
  match v with
  | VNone => false
  | VBool b => b
  | VInt z => negb (Z.eqb z 0)
  | VStr s => negb (String.eqb s "")
  | VList l => match l with [] => false | _ => true end
  | VDict kv => match kv with [] => false | _ => true end
  | VCallable _ | VObj _ => true
  end.

Definition max_tool_prompts : nat := 8.

Definition newline : string := String (ascii_of_nat 10) EmptyString.

(** The text between the replies of a combined transcript. *)
Definition working : string :=
  newline +:+ newline +:+ " ...working... " +:+ newline +:+ newline.

Definition follow_up (tool_prompt_counter : nat) : string :=
  "(auto for " +:+ pretty (max_tool_prompts - tool_prompt_counter)
  +:+ " more tool calls max)".

(** [extra_data.get('requests')] with
    [extra_data = getattr(self.conversation, 'attributes', {})]. *)
Definition pending_requests (b : bot) : result value :=
  let extra_data :=
    match conversation b with
    | None => VDict []
    | Some c =>
        match st b !! c with
        | None => VDict []
        | Some n => default (VDict []) (CN.attrs n !! "attributes")
        end
    end in
  match extra_data with
  | VDict kv => Ok (default VNone (dict_get "requests" kv))
  | _ => Raise (AttributeError "object has no attribute 'get'")
  end.

(** The [while] loop of [_respond_auto] (the [print] calls left out). *)
Fixpoint auto_loop (fuel : nat) (tr : transport) (r : value)
    (tool_prompt_counter : nat) (total_reply : string) : M string :=
  fun b =>
    if Nat.ltb tool_prompt_counter max_tool_prompts then
      match fuel with
      | O => None
      | S f =>
          match pending_requests b with
          | Raise e => Some (Raise e, b)
          | Ok requests =>
              if truthy requests then
                (response ← _cvsn_respond tr (Some (follow_up tool_prompt_counter)) r;
                 auto_loop f tr r (S tool_prompt_counter)
                           (total_reply +:+ working +:+ response)) b
              else Some (Ok total_reply, b)
          end
      end
    else Some (Ok total_reply, b).

(** [Bot._respond_auto] *)
Definition _respond_auto (tr : transport) (content : string) (r : value)
  : M string :=
  response ← _cvsn_respond tr (Some content) r;
  auto_loop max_tool_prompts tr r 1 response.

(** [Bot.respond] *)
Definition respond (tr : transport) (content : string) (r : value)
                   (tool_auto : bool) : M string :=
  if tool_auto then _respond_auto tr content r
  else _cvsn_respond tr (Some content) r.

(** Number of sends recorded in the mailbox log. *)
Definition sends (b : bot) : nat :=
  length (List.filter (fun e => match e with OUTGOING _ => true | _ => false end)
                      (log b)).

(** *** [Bot.save] *)

(** A persisted node record as a JSON value. *)
Fixpoint pdict_value (d : CN.pdict) : value :=
  match d with
  | CN.PDict items reply_dicts =>
      VDict (map_to_list items ++
             match reply_dicts with
             | None => []
             | Some ds => [("replies", VList (map pdict_value ds))]
             end)
  end.

(** [isinstance(value, (str, int, float, bool, list, dict, type(None)))] *)
Definition primitive (v : value) : bool :=
  match v with
  | VCallable _ | VObj _ => false
  | _ => true
  end.

(** [str(value)] of a value that is not primitive. *)
Definition str_of (v : value) : value :=
  match v with
  | VCallable n => VStr n
  | VObj repr => VStr repr
  | _ => v
  end.

(** The public entries of [self.__dict__]; the objects that [save]
    replaces or pops are entered by their [str()]. *)
Definition instance_dict (b : bot) : gmap string value :=
  <["api_key" := api_key b]>
  (<["name" := VStr (name b)]>
  (<["model_engine" := VStr (model_engine b)]>
  (<["max_tokens" := max_tokens b]>
  (<["temperature" := temperature b]>
  (<["role" := VStr (role b)]>
  (<["role_description" := VStr (role_description b)]>
  (<["conversation" := VObj "<ConversationNode object>"]>
  (<["system_message" := VStr (system_message b)]>
  (<["tool_handler" :=
       match tool_handler b with
       | Some _ => VObj "<ToolHandler object>"
       | None => VNone
       end]>
  (<["mailbox" := VObj "<Mailbox object>"]> (others b))))))))))).

(** [save]: the file name and the record handed to [json.dump].
    [handler_to_dict] stands for [ToolHandler.to_dict], which reads the
    tools' sources and files; [now] is the clock reading. *)
Definition save (handler_to_dict : TH.handler W -> value)
    (now : string) (filename : option string) (b : bot)
  : option (result (string * gmap string value)) :=
  let filename :=
    match filename with
    | Some f => f
    | None => name b +:+ "@" +:+ now +:+ ".bot"
    end in
  let data := filter (fun kv => startswith_underscore kv.1 = false) (instance_dict b) in
  let data := delete "api_key" data in
  let data := delete "mailbox" data in
  let data := <["bot_class" := VStr (bot_class b)]> data in
  let data := <["model_engine" := VStr (model_engine b)]> data in
  match conversation b with
  | None => Some (Raise (AttributeError "'NoneType' object has no attribute 'root_dict'"))
  | Some c =>
      match CN.root_dict (length (st b)) (st b) c with
      | None => None
      | Some d =>
          let data := <["conversation" := pdict_value d]> data in
          match tool_handler b with
          | None => Some (Raise (AttributeError "'NoneType' object has no attribute 'to_dict'"))
          | Some h =>
              let data := <["tool_handler" := handler_to_dict h]> data in
              let data := (fun v => if primitive v then v else str_of v) <$> data in
              Some (Ok (filename, data))
          end
      end
  end.

End WithTransport.

Arguments bot : clear implicits.
Arguments transport : clear implicits.
Arguments M : clear implicits.

End Bot.

(** ** ConversationNode.node_count ([base.py], lines 144-156) *)

Module NodeCount.
Import CN.

(** The inner function of [node_count]. *)
Fixpoint count_recursive (fuel : nat) (st : store) (current_node : nat)
  : option nat :=
  match fuel with
  | O => None
  | S f =>
      match st !! current_node with
      | None => None
      | Some n =>
          match mapM (count_recursive f st) (replies n) with
          | None => None
          | Some counts => Some (1 + list_sum counts)
          end
      end
  end.

(** [ConversationNode.node_count] *)
Definition node_count (fuel : nat) (st : store) (self : nat) : option nat :=
  match find_root fuel st self with
  | None => None
  | Some root => count_recursive fuel st root
  end.

End NodeCount.

(** ** Registering tools ([base.py], lines 215-219; [anthropic_bots.py],
    lines 23-43) *)

Module Schema.

Section WithWorld.
Context {W : Type}.

(** What [inspect] sees of a Python function, and the callable itself:
    each parameter comes with whether it has a default. *)
Record pyfunc : Type := mkFunc {
  fn_name : string;
  fn_doc : option string;
  fn_params : list (string * bool);
  fn_call : TH.tool W
}.

(** [inspect.getdoc(func) or "No description provided."] *)
Definition description (func : pyfunc) : string :=
  match fn_doc func with
  | Some doc => if String.eqb doc "" then "No description provided." else doc
  | None => "No description provided."
  end.

(** The [for param_name, param in sig.parameters.items()] loop, on the
    pair (properties, required). *)
Fixpoint schema_loop (params : list (string * bool))
    (properties : list (string * value)) (required : list value)
  : list (string * value) * list value :=
  match params with
  | [] => (properties, required)
  | (param_name, has_default) :: rest =>
      schema_loop rest
        (dict_set param_name (VDict [("type", VStr "string")]) properties)
        (if has_default then required else required ++ [VStr param_name])
  end.

Definition tool_schema (func : pyfunc) : value :=
  let '(properties, required) := schema_loop (fn_params func) [] [] in
  VDict [("name", VStr (fn_name func));
         ("description", VStr (description func));
         ("input_schema",
          VDict [("type", VStr "object");
                 ("properties", VDict properties);
                 ("required", VList required)])].

(** [AnthropicToolHandler.generate_tool_schema]: registers the tool
    itself and returns None. *)
Definition generate_tool_schema (h : TH.handler W) (func : pyfunc)
  : option value * TH.handler W :=
  (None,
   TH.mkHandler (TH.tools h ++ [tool_schema func])
                (<[fn_name func := fn_call func]> (TH.function_map h))
                (TH.requests h) (TH.results h)).

(** [ToolHandler.add_tool] *)
Definition add_tool (h : TH.handler W) (func : pyfunc) : TH.handler W :=
  let '(schema, h1) := generate_tool_schema h func in
  match schema with
  | Some s =>
      TH.mkHandler (TH.tools h1 ++ [s])
                   (<[fn_name func := fn_call func]> (TH.function_map h1))
                   (TH.requests h1) (TH.results h1)
  | None => h1
  end.

(** The loop of [add_tools_from_file] over the functions extracted. *)
Definition add_tools (h : TH.handler W) (functions : list pyfunc) : TH.handler W :=
  fold_left add_tool functions h.

End WithWorld.

Arguments pyfunc : clear implicits.

End Schema.

(** ** Engines ([base.py], lines 35-62) *)

Module Engines.

Inductive engine : Type :=
| GPT4 | GPT4Turbo | GPT35 | CLAUDE3OPUS | CLAUDE3SONNET | CLAUDE35.


Definition value (e : engine) : string :=
  match e with
  | GPT4 => "gpt-4"
  | GPT4Turbo => "gpt-4-turbo"
  | GPT35 => "gpt-3.5-turbo"
  | CLAUDE3OPUS => "claude-3-opus-20240229"
  | CLAUDE3SONNET => "claude-3-sonnet-20240229"
  | CLAUDE35 => "claude-3-5-sonnet-20240620"
  end.



Inductive bot_class : Type := GPTBot | AnthropicBot.



End Engines.

(** * Vocabulary of the statements and example data *)

Section ConversationTreeVocabulary.
Import CN.

(** Parent links always point to older objects. *)
Definition parents_older (st : store) : Prop :=
  forall i n p, st !! i = Some n -> parent n = Some p -> p < i.

(** What the specification asks of [build_messages] at a node: the
    entries of the path from the root, root first, one more than the
    node's depth. *)
Definition linearize_is_path (st : store) (cur : nat) : Prop :=
  exists path d,
    root_path st path cur /\
    build_messages (length st) st cur = Some (entries st path) /\
    depth (length st) st cur = Some d /\
    length (entries st path) = d + 1.

(** A user turn followed by a reply whose role is "empty" and whose
    content is the empty string. *)
Definition empty_reply_calls : list reply_call :=
  [ mkCall 0 (VStr "hello") (VStr "user") ∅ ;
    mkCall 0 (VStr "") (VStr "empty") ∅ ].

Definition empty_reply_store : store :=
  [ mkNode (VStr "user") (VStr "hello") ∅ [1] None ;
    mkNode (VStr "empty") (VStr "") ∅ [] (Some 0) ].

End ConversationTreeVocabulary.

Section SerializationVocabulary.
Import CN.

(** Number of nodes of a tree. *)
Fixpoint tsize (t : tree) : nat :=
  match t with
  | Tree _ _ _ kids => S (list_sum (map tsize kids))
  end.

(** The references of the replies when a node's subtrees are allocated
    one after the other from reference [b] on. *)
Fixpoint kid_ids (kids : list tree) (b : nat) : list nat :=
  match kids with
  | [] => []
  | k :: ks => b :: kid_ids ks (b + tsize k)
  end.

(** The objects [from_dict] allocates for a tree, in allocation order,
    when the first free reference is [base]. *)
Fixpoint layout (t : tree) (base : nat) (p : option nat) {struct t}
  : list node :=
  match t with
  | Tree r c a kids =>
      mkNode r c a (kid_ids kids (S base)) p ::
      (fix go (ks : list tree) (b : nat) : list node :=
         match ks with
         | [] => []
         | k :: ks' => layout k b (Some base) ++ go ks' (b + tsize k)
         end) kids (S base)
  end.

Fixpoint layouts (ks : list tree) (b : nat) (self : nat) : list node :=
  match ks with
  | [] => []
  | k :: ks' => layout k b (Some self) ++ layouts ks' (b + tsize k) self
  end.

(** The record [_to_dict_recursive] writes for a tree. *)
Fixpoint dict_of (t : tree) : pdict :=
  match t with
  | Tree r c a kids =>
      PDict (_to_dict_self (mkNode r c a [] None))
            (match kids with
             | [] => None
             | _ :: _ => Some (map dict_of kids)
             end)
  end.

(** Role and content are data, and the extra attributes do not reuse a
    name that [__init__] assigns. *)
Inductive tree_ok : tree -> Prop :=
| tree_ok_intro r c a kids :
    callable r = false -> callable c = false ->
    (forall k, core_name k = true -> a !! k = None) ->
    Forall tree_ok kids ->
    tree_ok (Tree r c a kids).

(** The reply loop of [from_dict] as a function of its own. *)
Fixpoint hydrate (self : nat) (ds : list pdict) (st : store) : result store :=
  match ds with
  | [] => Ok st
  | reply_data :: ds' =>
      match from_dict reply_data st with
      | Raise e => Raise e
      | Ok (st1, reply_node) =>
          hydrate self ds'
            (alter (fun m => set_replies m (replies m ++ [reply_node])) self
               (alter (fun m => set_parent m (Some self)) reply_node st1))
      end
  end.

(** A tree with two branches below the first turn; one reply carries a
    public data attribute, a private one and a callable one. *)
Definition branching_calls : list reply_call :=
  [ mkCall 0 (VStr "hello") (VStr "user") ∅ ;
    mkCall 0 (VStr "hi there") (VStr "assistant")
          (<["stop_reason" := VStr "end_turn"]> ∅) ;
    mkCall 0 (VList [VDict [("type", VStr "text"); ("text", VStr "hey")]])
          (VStr "assistant")
          (<["usage" := VInt 7]> (<["_raw" := VInt 1]>
             (<["hook" := VCallable "on_reply"]> ∅))) ;
    mkCall 1 (VStr "and then?") (VStr "user") ∅ ].

Definition branching_store : store :=
  Eval vm_compute in
    match run branching_calls [create_empty] 0 with
    | Some (st, _) => st
    | None => []
    end.

End SerializationVocabulary.

Section ContentMergeVocabulary.
Import Merge.


End ContentMergeVocabulary.

(** The tool scenario of the specification, with the world a journal of
    the calls made: [add] is registered, [missing] is not. *)
Definition add_tool : TH.tool (list string) :=
  fun kwargs journal =>
    match dict_get "a" kwargs, dict_get "b" kwargs with
    | Some (VStr a), Some (VStr b) =>
        (Ok (VStr (a +:+ "+" +:+ b)), journal ++ ["add"])
    | _, _ => (Raise (TypeError "add() missing arguments"), journal ++ ["add"])
    end.

Definition add_handler : TH.handler (list string) :=
  TH.mkHandler [] (<["add" := add_tool]> ∅) [VStr "stale"] [VStr "stale"].

Section RetryLoopVocabulary.
Import AM.
Context {R : Type}.

(** The sleeps taken after the first [k] failed attempts. *)
Definition backoff (k : nat) : list Z :=
  map (fun a => (base_delay * 2 ^ Z.of_nat a)%Z) (seq 0 k).

(** The first [k] calls all raise an exception of a retried class. *)
Definition fails_first (create : nat -> create_dict -> result R)
                       (payload : create_dict) (k : nat) : Prop :=
  forall a, a < k -> exists e, create a payload = Raise e /\ transient e = true.

Definition sample_payload : create_dict :=
  mkCreate (VStr "claude-3-5-sonnet-20240620") (VInt 4096) (VStr "0.3")
           [CN.mkMessage (VStr "user") (VStr "hello")] None None.

End RetryLoopVocabulary.

Definition always_rate_limited : nat -> AM.create_dict -> result string :=
  fun _ _ => Raise (ApiError RateLimitError).

Definition flaky_twice : nat -> AM.create_dict -> result string :=
  fun attempt _ =>
    if Nat.ltb attempt 2 then Raise (ApiError InternalServerError)
    else Ok "hi there".

Section PayloadSpliceVocabulary.
Import CN TH AM.
Context {W : Type}.

(** [as_segments] as a partial function onto lists. *)
Definition segs (c : value) : option (list value) :=
  match c with
  | VStr s => Some [Merge.text_segment s]
  | VList l => Some l
  | _ => None
  end.

End PayloadSpliceVocabulary.

Definition add_request_1 : value :=
  VDict [("type", VStr "tool_use"); ("id", VStr "1"); ("name", VStr "add");
         ("input", VDict [("a", VStr "2"); ("b", VStr "3")])].

Definition add_result_1 : value :=
  VDict [("type", VStr "tool_result"); ("tool_use_id", VStr "1");
         ("content", VStr "5")].

(** A user turn, the assistant turn that asked for the tool, and the
    follow-up user turn, with the request and its result pending. *)
Definition tool_store : CN.store :=
  [ CN.mkNode (VStr "user") (VStr "what is 2+3?") ∅ [1] None ;
    CN.mkNode (VStr "assistant") (VStr "Let me add.") ∅ [2] (Some 0) ;
    CN.mkNode (VStr "user") (VStr "(auto for 7 more tool calls max)") ∅ []
              (Some 1) ].

Definition pending_handler : TH.handler unit :=
  TH.mkHandler [] ∅ [add_request_1] [add_result_1].

Definition fresh_bot : Bot.bot unit unit :=
  Bot.mkBot (VStr "sk-secret") "Claude" "claude-3-5-sonnet-20240620" (VInt 4096)
            (VStr "0.3") "assistant" "a friendly AI assistant" ""
            (Some 0) (Some (TH.mkHandler [] ∅ [] [])) ∅ "AnthropicBot"
            [CN.create_empty] [] tt.

(** A transport that answers every send the way
    [AnthropicMailbox._process_response] does after a tool call: the
    requests and results are the extra data. *)
Definition requesting_transport : Bot.transport unit unit :=
  fun b =>
    (Ok ("calling add", VStr "assistant",
         <["requests" := VList [add_request_1]]>
           (<["results" := VList [add_result_1]]> ∅)), b).

(** A transport whose extra data is a dict stored under 'attributes'. *)
Definition attributes_transport : Bot.transport unit unit :=
  fun b =>
    (Ok ("calling add", VStr "assistant",
         <["attributes" := VDict [("requests", VList [add_request_1])]]> ∅), b).

Definition refusing_transport : Bot.transport unit unit :=
  fun b => (Raise (ApiError (OtherApiError "AuthenticationError")), b).

(** The last message of every payload sent, in order. *)
Definition prompts (b : Bot.bot unit unit) : list value :=
  omap (fun e => match e with
                 | Bot.OUTGOING ms => CN.msg_content <$> last ms
                 | _ => None
                 end) (Bot.log b).

Fixpoint repeat_reply (k : nat) (reply : string) : string :=
  match k with
  | O => reply
  | S k' => reply +:+ Bot.working +:+ repeat_reply k' reply
  end.

Section TreeShapeVocabulary.
Import CN.

(** Every parent reference points to an older object (checked node by
    node). *)
Definition acyclic (st : store) : bool :=
  forallb (fun '(i, n) => match parent n with
                          | None => true
                          | Some p => Nat.ltb p i
                          end) (imap pair st).

(** Whenever a node has a parent, that parent is an older node that is
    not empty-valued and lists the node among its replies. *)
Definition consistent (st : store) : Prop :=
  forall i n p,
    st !! i = Some n -> parent n = Some p ->
    p < i /\ exists pn, st !! p = Some pn /\ i ∈ replies pn /\ is_empty pn = false.

End TreeShapeVocabulary.

Section RecordVocabulary.
Import CN.

(** Every record of a persisted tree has a 'content' and a 'role'. *)
Fixpoint complete (d : pdict) : bool :=
  match d with
  | PDict items reply_dicts =>
      bool_decide (is_Some (items !! "content"))
      && bool_decide (is_Some (items !! "role"))
      && match reply_dicts with
         | None => true
         | Some ds => forallb complete ds
         end
  end.

(** The tree a persisted record describes. *)
Fixpoint tree_of_dict (d : pdict) : tree :=
  match d with
  | PDict items reply_dicts =>
      Tree (default VNone (items !! "role")) (default VNone (items !! "content"))
           (extras items)
           (match reply_dicts with
            | None => []
            | Some ds => map tree_of_dict ds
            end)
  end.

(** A record that [_to_dict_recursive] can have written: role and content
    are data, every item is persisted, no item is named 'replies' or
    'parent', and a reply list that is present is not empty. *)
Fixpoint canonical (d : pdict) : bool :=
  match d with
  | PDict items reply_dicts =>
      match items !! "role", items !! "content" with
      | Some r, Some c => negb (callable r) && negb (callable c)
      | _, _ => false
      end
      && forallb (fun kv => persisted kv.1 kv.2
                            && negb (String.eqb kv.1 "replies")
                            && negb (String.eqb kv.1 "parent"))
                 (map_to_list items)
      && match reply_dicts with
         | None => true
         | Some [] => false
         | Some ds => forallb canonical ds
         end
  end.

(** What [__init__] raises when [from_dict] calls it without a 'content'
    or a 'role'. *)
Definition missing_argument : exn :=
  TypeError "__init__() missing a required argument".

(** A persisted conversation of two turns, the reply with an extra
    attribute. *)
Definition sample_record : pdict :=
  PDict (<["role" := VStr "user"]> (<["content" := VStr "hello"]> ∅))
        (Some [PDict (<["role" := VStr "assistant"]>
                        (<["content" := VStr "hi there"]>
                           (<["stop_reason" := VStr "end_turn"]> ∅)))
                     None]).

End RecordVocabulary.

Section MergeVocabulary.
Import Merge.

(** [isinstance(v, str) or isinstance(v, list)] *)
Definition str_or_list (v : value) : bool :=
  match v with
  | VStr _ | VList _ => true
  | _ => false
  end.

(** The only segment [merge_content] looks into: the first segment of a
    new list merged after a str, the last segment of an existing list
    merged before a str. *)
Definition boundary (existing_content new_content : value) : option value :=
  match existing_content, new_content with
  | VStr _, VList n => head n
  | VList e, VStr _ => last e
  | _, _ => None
  end.

End MergeVocabulary.

Section SchemaVocabulary.
Context {W : Type}.

(** The last function of a list that has a given name. *)
Definition last_named (name : string) (functions : list (Schema.pyfunc W))
  : option (Schema.pyfunc W) :=
  last (List.filter (fun f => String.eqb (Schema.fn_name f) name) functions).

(** The schema of a parameter: every parameter is declared a string. *)
Definition string_property (p : string * bool) : string * value :=
  (p.1, VDict [("type", VStr "string")]).

(** The parameters without a default, in order. *)
Definition required_names (params : list (string * bool)) : list value :=
  map (fun p => VStr p.1) (List.filter (fun p => negb p.2) params).

(** The request and the result schema of one tool call. *)
Definition tool_use (id name : string) (input : list (string * value)) : value :=
  VDict [("type", VStr "tool_use"); ("id", VStr id);
         ("name", VStr name); ("input", VDict input)].

Definition tool_result (id : string) (out : value) : value :=
  VDict [("type", VStr "tool_result"); ("tool_use_id", VStr id);
         ("content", out)].

(** Two sample functions with the same name. *)
Definition shout : Schema.pyfunc (list string) :=
  Schema.mkFunc "say" (Some "Say it loudly.") [("text", false); ("times", true)]
    (fun kwargs w => (Ok (VStr "LOUD"), "shout" :: w)).

Definition whisper : Schema.pyfunc (list string) :=
  Schema.mkFunc "say" None [("text", false)]
    (fun kwargs w => (Ok (VStr "quiet"), "whisper" :: w)).

End SchemaVocabulary.

Section ToolDispatchVocabulary.

(** The tool-use blocks of a response, in the order the provider emitted
    them: id, name and input of each. *)
Definition tool_uses (response_content : list TH.block)
  : list (string * string * list (string * value)) :=
  omap (fun b => match b with
                 | TH.ToolUseBlock id name input => Some (id, name, input)
                 | _ => None
                 end) response_content.

Definition request_of (use : string * string * list (string * value)) : value :=
  let '(id, name, input) := use in tool_use id name input.

(** A registered tool that fails with a KeyError of its own. *)
Definition lookup_tool : TH.tool (list string) :=
  fun kwargs journal => (Raise (KeyError "missing"), journal ++ ["lookup"]).

Definition lookup_handler : TH.handler (list string) :=
  TH.mkHandler [] (<["lookup" := lookup_tool]> (<["add" := add_tool]> ∅)) [] [].

End ToolDispatchVocabulary.

Section RetryTraceVocabulary.
Import AM.
Context {R : Type}.

(** Whether an answer of the provider is an exception of a retried
    class. *)
Definition retried (answer : result R) : bool :=
  match answer with
  | Raise e => transient e
  | Ok _ => false
  end.

(** The seconds slept in all, the jitter left out. *)
Definition total_delay (tr : trace) : Z := foldr Z.add 0%Z (delays tr).

End RetryTraceVocabulary.

Section AgentVocabulary.
Import Bot.
Context {W X : Type}.

(** The messages a send from the bot's current node would carry. *)
Definition history (b : bot W X) : option (list CN.message) :=
  match conversation b with
  | None => None
  | Some c => CN.build_messages (length (st b)) (st b) c
  end.

(** A transport that writes nothing to the mailbox log itself. *)
Definition keeps_log (tr : transport W X) : Prop :=
  forall b, log (tr b).2 = log b.

(** A transport that leaves the conversation tree and the bot's position
    in it alone (as a send without pending tool work does). *)
Definition keeps_tree (tr : transport W X) : Prop :=
  forall b, st (tr b).2 = st b /\ conversation (tr b).2 = conversation b.

End AgentVocabulary.

(** * Properties *)

(** ** The conversation tree *)

Section ConversationTree.
Import CN.

Lemma parents_older_initial : parents_older [create_empty].
Proof.
  intros i n p Hi Hp. destruct i as [|i]; simpl in Hi.
  - inversion Hi; subst. discriminate.
  - destruct i; discriminate.
Qed.

Lemma add_reply_length st self c r kw st' new :
  add_reply st self c r kw = Some (st', new) ->
  new < length st' /\ length st <= length st'.
Proof.
  unfold add_reply. destruct (st !! self) as [n|] eqn:Hn; [|discriminate].
  apply lookup_lt_Some in Hn.
  destruct (is_empty n); intros [= <- <-].
  - rewrite length_insert. lia.
  - rewrite length_insert, length_app. simpl. lia.
Qed.

Lemma add_reply_parents_older st self c r kw st' new :
  parents_older st -> add_reply st self c r kw = Some (st', new) ->
  parents_older st'.
Proof.
  intros Hwf. unfold add_reply.
  destruct (st !! self) as [n|] eqn:Hn; [|discriminate].
  pose proof (lookup_lt_Some _ _ _ Hn) as Hlt.
  destruct (is_empty n); intros [= <- <-]; intros i m p Hi Hp.
  - destruct (decide (i = self)) as [->|Hne].
    + rewrite list_lookup_insert_eq in Hi by done.
      inversion Hi; subst. discriminate.
    + rewrite list_lookup_insert_ne in Hi by done. eauto.
  - destruct (decide (i = self)) as [->|Hne].
    + rewrite list_lookup_insert_eq in Hi by (rewrite length_app; simpl; lia).
      inversion Hi; subst. simpl in Hp. eauto.
    + rewrite list_lookup_insert_ne in Hi by done.
      destruct (decide (i < length st)) as [Hl|Hl].
      * rewrite lookup_app_l in Hi by done. eauto.
      * rewrite lookup_app_r in Hi by lia.
        destruct (i - length st) as [|k] eqn:Hk; simpl in Hi.
        -- inversion Hi; subst. simpl in Hp. inversion Hp; subst. lia.
        -- destruct k; discriminate.
Qed.

Lemma run_parents_older calls : forall st cur st' cur',
  parents_older st -> cur < length st ->
  run calls st cur = Some (st', cur') ->
  parents_older st' /\ cur' < length st'.
Proof.
  induction calls as [|c rest IH]; intros st cur st' cur' Hwf Hcur; simpl.
  - intros [= <- <-]. done.
  - destruct (add_reply _ _ _ _ _) as [[st1 cur1]|] eqn:Hadd; [|discriminate].
    intros Hrun. eapply IH; [| |exact Hrun].
    + eapply add_reply_parents_older; eauto.
    + eapply add_reply_length; eauto.
Qed.

Lemma entries_snoc st path i n :
  st !! i = Some n -> entries st (path ++ [i]) = entries st path ++ [entry n].
Proof.
  intros Hi. unfold entries. rewrite omap_app. simpl. by rewrite Hi.
Qed.

Lemma walk_done fuel st acc : walk fuel st None acc = Some acc.
Proof. by destruct fuel. Qed.

Lemma root_path_nonempty st path i : root_path st path i -> 0 < length path.
Proof. destruct 1; [simpl; lia | rewrite length_app; simpl; lia]. Qed.

(** The loop of [build_messages] returns the entries along the parent
    links, root first, in front of what it was given; [depth] counts
    the same links. *)
Lemma walk_root_path fuel : forall st i n acc,
  parents_older st -> st !! i = Some n -> i < fuel ->
  exists path,
    root_path st path i /\
    walk fuel st (Some i) acc = Some (entries st path ++ acc) /\
    length (entries st path) = length path /\
    depth fuel st i = Some (length path - 1).
Proof.
  induction fuel as [|f IH]; intros st i n acc Hwf Hi Hlt; [lia|].
  simpl. rewrite Hi. destruct (parent n) as [p|] eqn:Hp.
  - pose proof (Hwf _ _ _ Hi Hp) as Hpi.
    assert (is_Some (st !! p)) as [m Hm].
    { apply lookup_lt_is_Some. apply lookup_lt_Some in Hi. lia. }
    destruct (IH st p m (entry n :: acc) Hwf Hm ltac:(lia))
      as (path & Hpath & Hwalk & Hlen & Hdepth).
    exists (path ++ [i]). split; [|split; [|split]].
    + eapply root_path_step; eauto.
    + rewrite Hwalk. erewrite entries_snoc by eauto.
      by rewrite <- app_assoc.
    + erewrite entries_snoc by eauto. rewrite !length_app. simpl. lia.
    + rewrite Hdepth. simpl. f_equal. rewrite length_app. simpl.
      apply root_path_nonempty in Hpath. lia.
  - exists [i]. split; [|split; [|split]].
    + eapply root_path_root; eauto.
    + unfold entries. simpl. rewrite Hi. simpl. apply walk_done.
    + unfold entries. simpl. by rewrite Hi.
    + done.
Qed.

Lemma root_path_entries_nonempty st path i :
  root_path st path i -> 0 < length (entries st path).
Proof.
  destruct 1 as [i n Hi _|p path i n _ Hi _].
  - unfold entries. simpl. rewrite Hi. simpl. lia.
  - erewrite entries_snoc by eauto. rewrite length_app. simpl. lia.
Qed.

(** C1, counterexample: after [add_reply(content="hello", role="user")]
    on the sentinel and [add_reply(content="", role="empty")] on the
    result, the current node has depth 1, yet [build_messages] returns
    the empty list instead of the two entries of its path. *)
Lemma build_messages_path_counterexample :
  run empty_reply_calls [create_empty] 0 = Some (empty_reply_store, 1) /\
  build_messages (length empty_reply_store) empty_reply_store 1 = Some [] /\
  depth (length empty_reply_store) empty_reply_store 1 = Some 1 /\
  ~ linearize_is_path empty_reply_store 1.
Proof.
  split; [vm_compute; reflexivity|].
  split; [reflexivity|]. split; [reflexivity|].
  intros (path & d & Hpath & Hbuild & _ & _).
  apply root_path_entries_nonempty in Hpath.
  change (build_messages (length empty_reply_store) empty_reply_store 1)
    with (Some (@nil message)) in Hbuild.
  inversion Hbuild as [Hnil]. rewrite <- Hnil in Hpath. simpl in Hpath. lia.
Qed.

(** C1, amended: for every sequence of [add_reply] calls starting from
    the sentinel, [build_messages] on the current node returns, when
    that node does not have role "empty" with content "", exactly the
    entries on the parent path from the root to it, root first, of
    length depth + 1; when it does (the sentinel in particular) it
    returns the empty list. *)
Theorem build_messages_path calls st cur :
  run calls [create_empty] 0 = Some (st, cur) ->
  exists n,
    st !! cur = Some n /\
    (is_empty n = false -> linearize_is_path st cur) /\
    (is_empty n = true -> build_messages (length st) st cur = Some []).
Proof.
  intros Hrun.
  destruct (run_parents_older calls [create_empty] 0 st cur
              parents_older_initial ltac:(simpl; lia) Hrun) as [Hwf Hcur].
  destruct (lookup_lt_is_Some_2 st cur Hcur) as [n Hn].
  exists n. split; [done|]. split; intros He.
  - destruct (walk_root_path (length st) st cur n [] Hwf Hn Hcur)
      as (path & Hpath & Hwalk & Hlen & Hdepth).
    exists path, (length path - 1). split; [done|].
    split; [|split; [done|]].
    + unfold build_messages. rewrite Hn, He, Hwalk. by rewrite app_nil_r.
    + apply root_path_nonempty in Hpath. lia.
  - unfold build_messages. by rewrite Hn, He.
Qed.

Lemma build_messages_path_witness :
  run branching_calls [create_empty] 0 = Some (branching_store, 3) /\
  exists n,
    branching_store !! 3 = Some n /\
    (is_empty n = false -> linearize_is_path branching_store 3) /\
    (is_empty n = true ->
     build_messages (length branching_store) branching_store 3 = Some []).
Proof.
  split; [vm_compute; reflexivity|].
  apply (build_messages_path branching_calls branching_store 3).
  vm_compute; reflexivity.
Defined.

(** The end-to-end scenario: the first turn reinitializes the sentinel,
    the reply becomes its child, and the history of a node on the first
    branch is its path. *)
Example build_messages_branch :
  build_messages (length branching_store) branching_store 3 =
  Some [ mkMessage (VStr "user") (VStr "hello") ;
         mkMessage (VStr "assistant") (VStr "hi there") ;
         mkMessage (VStr "user") (VStr "and then?") ] /\
  depth (length branching_store) branching_store 3 = Some 2.
Proof. split; reflexivity. Qed.

Lemma is_empty_values n :
  is_empty n = true <-> role n = VStr "empty" /\ content n = VStr "".
Proof.
  unfold is_empty. split.
  - intros H. apply andb_true_iff in H as [Hr Hc].
    destruct (role n) as [| | |s| | | |]; try done.
    destruct (content n) as [| | |s'| | | |]; try done.
    apply String.eqb_eq in Hr, Hc. by subst.
  - intros [-> ->]. done.
Qed.

Lemma find_root_path fuel : forall st i n,
  parents_older st -> st !! i = Some n -> i < fuel ->
  exists root m path,
    find_root fuel st i = Some root /\ st !! root = Some m /\ parent m = None /\
    root <= i /\ root_path st path i /\ head path = Some root.
Proof.
  induction fuel as [|f IH]; intros st i n Hwf Hi Hlt; [lia|].
  simpl. rewrite Hi. destruct (parent n) as [p|] eqn:Hp.
  - pose proof (Hwf _ _ _ Hi Hp) as Hpi.
    assert (is_Some (st !! p)) as [pn Hpn].
    { apply lookup_lt_is_Some. apply lookup_lt_Some in Hi. lia. }
    destruct (IH st p pn Hwf Hpn ltac:(lia))
      as (root & m & path & Hroot & Hm & Hpm & Hle & Hpath & Hhead).
    exists root, m, (path ++ [i]). repeat split; try done; try lia.
    + eapply root_path_step; eauto.
    + destruct path; [done|]. done.
  - exists i, n, [i]. repeat split; try done. by eapply root_path_root.
Qed.

Lemma find_root_fixed fuel st root m :
  st !! root = Some m -> parent m = None -> 0 < fuel ->
  find_root fuel st root = Some root.
Proof. intros Hm Hp Hf. destruct fuel; [lia|]. simpl. by rewrite Hm, Hp. Qed.

(** C10: being the sentinel is a matter of the two attribute values
    alone.  On any node whose role is "empty" and whose content is "",
    wherever it sits in the tree, [build_messages] returns the empty
    list whatever its parent is, and [add_reply] reinitializes that very
    object: the same reference comes back, the store gains no object and
    every other object is untouched; the node takes the new role and
    content, ends with no replies and no parent, gains the keyword
    arguments as attributes and keeps the attributes it had under other
    names.  From then on its history is the one new entry. *)
Theorem sentinel_by_value st i n c r kw fuel :
  st !! i = Some n -> role n = VStr "empty" -> content n = VStr "" ->
  is_empty n = true /\
  build_messages fuel st i = Some [] /\
  exists st' n',
    add_reply st i c r kw = Some (st', i) /\
    length st' = length st /\
    (forall j, j <> i -> st' !! j = st !! j) /\
    st' !! i = Some n' /\
    role n' = r /\ content n' = c /\ replies n' = [] /\ parent n' = None /\
    (forall k, k <> "role" -> k <> "content" -> k <> "replies" -> k <> "parent" ->
       attrs n' !! k = match kw !! k with
                       | Some v => Some v
                       | None => attrs n !! k
                       end) /\
    (r <> VStr "empty" \/ c <> VStr "" ->
     build_messages (S fuel) st' i = Some [mkMessage r c]).
Proof.
  intros Hi Hr Hc.
  assert (is_empty n = true) as He by (unfold is_empty; by rewrite Hr, Hc).
  pose proof (lookup_lt_Some _ _ _ Hi) as Hlt.
  split; [done|]. split; [unfold build_messages; by rewrite Hi, He|].
  exists (<[i := init (attrs n) c r kw]> st), (init (attrs n) c r kw).
  split; [unfold add_reply; by rewrite Hi, He|].
  split; [apply length_insert|].
  split; [intros j Hj; by apply list_lookup_insert_ne|].
  split; [by apply list_lookup_insert_eq|].
  do 4 (split; [done|]). split.
  - intros k H1 H2 H3 H4. cbn [attrs init]. unfold extras.
    assert (core_name k = false) as Hcore.
    { unfold core_name.
      apply String.eqb_neq in H1. apply String.eqb_neq in H2.
      apply String.eqb_neq in H3. apply String.eqb_neq in H4.
      by rewrite H1, H2, H3, H4. }
    rewrite lookup_union, map_lookup_filter.
    destruct (kw !! k) as [v|]; simpl.
    + rewrite option_guard_True by done. simpl. by destruct (attrs n !! k).
    + by destruct (attrs n !! k).
  - intros Hreal. unfold build_messages.
    rewrite list_lookup_insert_eq by done.
    assert (is_empty (init (attrs n) c r kw) = false) as ->.
    { destruct (is_empty (init (attrs n) c r kw)) eqn:He'; [|done].
      apply is_empty_values in He' as [Hr' Hc']. simpl in Hr', Hc'.
      destruct Hreal as [H|H]; by destruct H. }
    cbn [walk]. rewrite list_lookup_insert_eq by done.
    cbn [parent init]. by rewrite walk_done.
Qed.

Lemma sentinel_by_value_witness :
  parent (mkNode (VStr "empty") (VStr "") ∅ [] (Some 0)) = Some 0 /\
  is_empty (mkNode (VStr "empty") (VStr "") ∅ [] (Some 0)) = true /\
  build_messages 2 empty_reply_store 1 = Some [] /\
  exists st' n',
    add_reply empty_reply_store 1 (VStr "again") (VStr "user")
              (<["stop_reason" := VStr "end_turn"]> ∅) = Some (st', 1) /\
    length st' = length empty_reply_store /\
    (forall j, j <> 1 -> st' !! j = empty_reply_store !! j) /\
    st' !! 1 = Some n' /\
    role n' = VStr "user" /\ content n' = VStr "again" /\
    replies n' = [] /\ parent n' = None /\
    (forall k, k <> "role" -> k <> "content" -> k <> "replies" -> k <> "parent" ->
       attrs n' !! k =
       match (<["stop_reason" := VStr "end_turn"]> ∅ : gmap string value) !! k with
       | Some v => Some v
       | None => (∅ : gmap string value) !! k
       end) /\
    (VStr "user" <> VStr "empty" \/ VStr "again" <> VStr "" ->
     build_messages 3 st' 1 = Some [mkMessage (VStr "user") (VStr "again")]).
Proof.
  split; [reflexivity|].
  exact (sentinel_by_value empty_reply_store 1
           (mkNode (VStr "empty") (VStr "") ∅ [] (Some 0))
           (VStr "again") (VStr "user") (<["stop_reason" := VStr "end_turn"]> ∅) 2
           eq_refl eq_refl eq_refl).
Defined.

End ConversationTree.

(** ** Serialization round trip *)

Section Serialization.
Import CN.

Lemma tree_ind_nested (P : tree -> Prop) :
  (forall r c a kids, Forall P kids -> P (Tree r c a kids)) ->
  forall t, P t.
Proof.
  intros H. fix IH 1. intros [r c a kids]. apply H.
  revert kids. fix IHk 1. intros [|k ks]; constructor; [apply IH | apply IHk].
Qed.

Lemma from_dict_unfold items rd st :
  from_dict (PDict items rd) st =
  match items !! "content", items !! "role" with
  | Some c, Some r =>
      match rd with
      | None => Ok (st ++ [init ∅ c r items], length st)
      | Some ds =>
          match hydrate (length st) ds (st ++ [init ∅ c r items]) with
          | Raise e => Raise e
          | Ok st' => Ok (st', length st)
          end
      end
  | _, _ => Raise (TypeError "__init__() missing a required argument")
  end.
Proof.
  simpl. destruct (items !! "content") as [c|]; [|done].
  destruct (items !! "role") as [r|]; [|done].
  destruct rd as [ds|]; [|done].
  match goal with
  | |- match ?f _ _ with _ => _ end = _ =>
      assert (forall ds' st1, f ds' st1 = hydrate (length st) ds' st1) as ->; [|done]
  end.
  induction ds' as [|d ds' IH]; intros st1; simpl; [done|].
  destruct (from_dict d st1) as [[st2 rn]|e]; [|done]. apply IH.
Qed.

Lemma layout_unfold r c a kids base p :
  layout (Tree r c a kids) base p =
  mkNode r c a (kid_ids kids (S base)) p :: layouts kids (S base) base.
Proof.
  simpl. f_equal. generalize (S base) as b.
  induction kids as [|k ks IH]; intros b; simpl; [done|]. by rewrite IH.
Qed.

Lemma tsize_plain t : tsize (plain t) = tsize t.
Proof.
  induction t as [r c a kids IH] using tree_ind_nested. simpl. f_equal.
  f_equal. rewrite map_map. induction IH as [|k ks Hk _ IHks]; simpl; congruence.
Qed.

Lemma length_layout t : forall base p, length (layout t base p) = tsize t.
Proof.
  induction t as [r c a kids IH] using tree_ind_nested. intros base p.
  rewrite layout_unfold. simpl. f_equal. generalize (S base) as b.
  induction IH as [|k ks Hk _ IHks]; intros b; simpl; [done|].
  by rewrite length_app, Hk, IHks.
Qed.

Lemma length_layouts ks b self :
  length (layouts ks b self) = list_sum (map tsize ks).
Proof.
  revert b. induction ks as [|k ks IH]; intros b; simpl; [done|].
  by rewrite length_app, length_layout, IH.
Qed.

Lemma to_dict_self_lookup r c a k :
  (forall k, core_name k = true -> a !! k = None) ->
  _to_dict_self (mkNode r c a [] None) !! k =
  if String.eqb k "role" then (if callable r then None else Some r)
  else if String.eqb k "content" then (if callable c then None else Some c)
  else filter (fun kv => persisted kv.1 kv.2 = true) a !! k.
Proof.
  intros Hclean. unfold _to_dict_self, data_attributes. simpl.
  rewrite !map_lookup_filter.
  destruct (String.eqb_spec k "role") as [->|Hr].
  { rewrite lookup_delete_ne, lookup_delete_ne, lookup_insert_eq by done. simpl.
    destruct (callable r) eqn:Hc; case_guard as Hg; simpl; try done;
      unfold persisted in Hg; simpl in Hg; rewrite Hc in Hg; simpl in Hg;
      congruence. }
  destruct (String.eqb_spec k "content") as [->|Hc].
  { rewrite lookup_delete_ne, lookup_delete_ne, lookup_insert_ne, lookup_insert_eq by done.
    simpl. destruct (callable c) eqn:Hcc; case_guard as Hg; simpl; try done;
      unfold persisted in Hg; simpl in Hg; rewrite Hcc in Hg; simpl in Hg;
      congruence. }
  destruct (String.eqb_spec k "parent") as [->|Hp].
  { rewrite lookup_delete_eq, (Hclean "parent") by done. done. }
  destruct (String.eqb_spec k "replies") as [->|Hrp].
  { rewrite lookup_delete_ne, lookup_delete_eq, (Hclean "replies") by done. done. }
  rewrite !lookup_delete_ne, !lookup_insert_ne by done. done.
Qed.

Lemma init_of_dict r c a :
  callable r = false -> callable c = false ->
  (forall k, core_name k = true -> a !! k = None) ->
  _to_dict_self (mkNode r c a [] None) !! "content" = Some c /\
  _to_dict_self (mkNode r c a [] None) !! "role" = Some r /\
  init ∅ c r (_to_dict_self (mkNode r c a [] None)) =
    mkNode r c (filter (fun kv => persisted kv.1 kv.2 = true) a) [] None.
Proof.
  intros Hr Hc Hclean. rewrite !to_dict_self_lookup by done. simpl.
  rewrite Hr, Hc. split; [done|]. split; [done|].
  unfold init. f_equal. rewrite (right_id_L ∅ (∪)). unfold extras.
  apply map_eq. intros k. rewrite map_lookup_filter, to_dict_self_lookup by done.
  destruct (String.eqb_spec k "role") as [->|Hkr].
  { rewrite Hr. simpl.
    rewrite map_lookup_filter, (Hclean "role") by done. done. }
  destruct (String.eqb_spec k "content") as [->|Hkc].
  { rewrite Hc. simpl.
    rewrite map_lookup_filter, (Hclean "content") by done. done. }
  destruct (core_name k) eqn:Hcore.
  { rewrite map_lookup_filter, (Hclean k) by done. done. }
  destruct (filter _ a !! k) as [v|] eqn:Hv; simpl; [|done].
  case_guard as Hg; [done|]. cbn [fst] in Hg. congruence.
Qed.

Lemma set_parent_layout t base p q pre :
  alter (fun m => set_parent m q) (length pre) (pre ++ layout t base p) =
  pre ++ layout t base q.
Proof.
  rewrite alter_app_r_alt by lia. rewrite Nat.sub_diag.
  destruct t as [r c a kids]. rewrite !layout_unfold. done.
Qed.

Lemma kid_ids_app ks1 ks2 b :
  kid_ids (ks1 ++ ks2) b = kid_ids ks1 b ++ kid_ids ks2 (b + list_sum (map tsize ks1)).
Proof.
  revert b. induction ks1 as [|k ks IH]; intros b; simpl.
  - by rewrite Nat.add_0_r.
  - rewrite IH. do 3 f_equal. lia.
Qed.

Lemma layouts_app ks1 ks2 b self :
  layouts (ks1 ++ ks2) b self =
  layouts ks1 b self ++ layouts ks2 (b + list_sum (map tsize ks1)) self.
Proof.
  revert b. induction ks1 as [|k ks IH]; intros b; simpl.
  - by rewrite Nat.add_0_r.
  - rewrite IH, <- app_assoc. do 3 f_equal. lia.
Qed.

(** The reply loop, started after the replies [seen] have been built. *)
Lemma hydrate_layouts ks :
  Forall (fun k => forall st,
            from_dict (dict_of k) st =
            Ok (st ++ layout (plain k) (length st) None, length st)) ks ->
  forall pre r c a seen,
    hydrate (length pre) (map dict_of ks)
      (pre ++ mkNode r c a (kid_ids seen (S (length pre))) None
           :: layouts seen (S (length pre)) (length pre)) =
    Ok (pre ++ mkNode r c a (kid_ids (seen ++ map plain ks) (S (length pre))) None
            :: layouts (seen ++ map plain ks) (S (length pre)) (length pre)).
Proof.
  induction 1 as [|k ks Hk _ IH]; intros pre r c a seen; simpl.
  - by rewrite app_nil_r.
  - rewrite Hk.
    set (self := length pre).
    set (st := pre ++ mkNode r c a (kid_ids seen (S self)) None :: layouts seen (S self) self).
    assert (length st = S self + list_sum (map tsize seen)) as Hlen.
    { unfold st. rewrite length_app. simpl. rewrite length_layouts. unfold self. lia. }
    rewrite set_parent_layout.
    set (L := layout (plain k) (length st) (Some self)).
    assert (alter (fun m => set_replies m (replies m ++ [length st])) self (st ++ L) =
            pre ++ mkNode r c a (kid_ids seen (S self) ++ [length st]) None
                :: (layouts seen (S self) self ++ L)) as ->.
    { unfold st. rewrite <- app_assoc. rewrite alter_app_r_alt by (unfold self; lia).
      replace (self - length pre) with 0 by (unfold self; lia). done. }
    specialize (IH pre r c a (seen ++ [plain k])).
    rewrite kid_ids_app, layouts_app in IH. simpl in IH.
    rewrite app_nil_r in IH. fold self in IH.
    unfold L. rewrite Hlen.
    replace (S self + list_sum (map tsize seen))
      with (S (self + list_sum (map tsize seen))) by lia.
    rewrite IH. by rewrite <- !app_assoc.
Qed.

Lemma from_dict_layout t :
  tree_ok t ->
  forall st, from_dict (dict_of t) st =
             Ok (st ++ layout (plain t) (length st) None, length st).
Proof.
  induction t as [r c a kids IH] using tree_ind_nested.
  intros Hok st. inversion Hok as [r' c' a' kids' Hr Hc Hclean Hkids]; subst.
  cbn [dict_of]. rewrite from_dict_unfold.
  destruct (init_of_dict r c a Hr Hc Hclean) as (-> & -> & ->).
  destruct kids as [|k ks]; [done|].
  pose proof (hydrate_layouts (k :: ks)) as Hh.
  specialize (Hh ltac:(
    clear -IH Hkids; induction IH as [|x xs Hx _ IHxs];
    [constructor | inversion Hkids; subst; constructor; auto])).
  specialize (Hh st r c (filter (fun kv => persisted kv.1 kv.2 = true) a) []).
  cbn [kid_ids layouts app] in Hh. rewrite Hh.
  cbn [plain]. by rewrite layout_unfold.
Qed.

Lemma linked_kids f base ks :
  Forall (fun k => forall pre p post fuel, tsize k <= fuel ->
            linked fuel (pre ++ layout k (length pre) p ++ post) (length pre) p
            = Some k) ks ->
  list_sum (map tsize ks) <= f ->
  forall pre post,
    Forall2 (fun x y =>
               linked f (pre ++ layouts ks (length pre) base ++ post) x (Some base)
               = Some y)
            (kid_ids ks (length pre)) ks.
Proof.
  induction 1 as [|k ks Hk _ IH]; intros Hsum pre post; simpl in *; [constructor|].
  constructor.
  - rewrite <- app_assoc. apply Hk. lia.
  - specialize (IH ltac:(lia) (pre ++ layout k (length pre) (Some base)) post).
    rewrite length_app, length_layout in IH.
    by rewrite <- !app_assoc in *.
Qed.

Lemma linked_layout t :
  forall pre p post fuel, tsize t <= fuel ->
    linked fuel (pre ++ layout t (length pre) p ++ post) (length pre) p = Some t.
Proof.
  induction t as [r c a kids IH] using tree_ind_nested.
  intros pre p post [|f] Hf; simpl in Hf; [lia|].
  rewrite layout_unfold. cbn [linked].
  rewrite lookup_app_r by lia. rewrite Nat.sub_diag. cbn [lookup list_lookup app parent replies].
  rewrite decide_True by done.
  pose proof (linked_kids f (length pre) kids IH ltac:(lia)
                (pre ++ [mkNode r c a (kid_ids kids (S (length pre))) p]) post) as HF.
  rewrite length_app in HF. simpl in HF. rewrite Nat.add_1_r in HF.
  rewrite <- app_assoc in HF. simpl in HF.
  apply mapM_Some_2 in HF. rewrite HF. done.
Qed.

Lemma linked_tree_of fuel : forall st i p t,
  linked fuel st i p = Some t -> tree_of fuel st i = Some t.
Proof.
  induction fuel as [|f IH]; intros st i p t; simpl; [done|].
  destruct (st !! i) as [n|]; [|done].
  destruct (decide (parent n = p)); [|done].
  destruct (mapM _ (replies n)) as [kids|] eqn:Hm; [|done].
  intros [= <-]. apply mapM_Some_1 in Hm.
  assert (mapM (tree_of f st) (replies n) = Some kids) as ->; [|done].
  apply mapM_Some_2. eapply Forall2_impl; [exact Hm|]. simpl. eauto.
Qed.

Lemma to_dict_tree fuel : forall st i t,
  tree_of fuel st i = Some t -> _to_dict_recursive fuel st i = Some (dict_of t).
Proof.
  induction fuel as [|f IH]; intros st i t; simpl; [done|].
  destruct (st !! i) as [n|]; [|done].
  destruct (mapM (tree_of f st) (replies n)) as [kids|] eqn:Hm; [|done].
  intros [= <-]. apply mapM_Some_1 in Hm.
  assert (mapM (_to_dict_recursive f st) (replies n) = Some (map dict_of kids)) as Hd.
  { apply mapM_Some_2. induction Hm; simpl; constructor; auto. }
  cbn [dict_of]. destruct Hm as [|x y xs ys Hxy Hrest]; [done|].
  by rewrite Hd.
Qed.

Lemma well_formed_lookup st i n :
  well_formed st = true -> st !! i = Some n -> node_ok (length st) i n = true.
Proof.
  unfold well_formed. rewrite forallb_forall. intros H Hi.
  apply (H (i, n)). apply list_elem_of_In, list_elem_of_lookup.
  exists i. by rewrite list_lookup_imap, Hi.
Qed.

Lemma node_ok_inv len i n :
  node_ok len i n = true ->
  (forall c, c ∈ replies n -> i < c < len) /\
  (forall p, parent n = Some p -> p < i) /\
  callable (role n) = false /\ callable (content n) = false /\
  (forall k, core_name k = true -> attrs n !! k = None).
Proof.
  unfold node_ok. rewrite !andb_true_iff, !negb_true_iff.
  intros ((((Hrep & Hpar) & Hr) & Hc) & Hattrs).
  split; [|split; [|split; [done|split; [done|]]]].
  - intros c Hc'. rewrite forallb_forall in Hrep.
    apply list_elem_of_In, Hrep in Hc'.
    apply andb_true_iff in Hc' as [H1 H2].
    apply Nat.ltb_lt in H1, H2. lia.
  - intros p Hp. rewrite Hp in Hpar. by apply Nat.ltb_lt in Hpar.
  - intros k Hk. rewrite forallb_forall in Hattrs.
    assert (In k ["role"; "content"; "replies"; "parent"]) as Hin.
    { unfold core_name in Hk.
      repeat (apply orb_prop in Hk as [Hk|Hk]); apply String.eqb_eq in Hk;
        subst; simpl; auto. }
    apply Hattrs in Hin. by apply bool_decide_eq_true in Hin.
Qed.

Lemma mapM_total {A B} (g : A -> option B) (P : B -> Prop) l :
  (forall x, x ∈ l -> exists y, g x = Some y /\ P y) ->
  exists ys, mapM g l = Some ys /\ Forall P ys.
Proof.
  induction l as [|x l IH]; intros H.
  - exists []. split; [done|constructor].
  - destruct (H x ltac:(left)) as (y & Hy & HP).
    destruct IH as (ys & Hys & HPs); [intros z Hz; apply H; by right|].
    exists (y :: ys). split; [|by constructor].
    simpl. rewrite Hy. simpl. by rewrite Hys.
Qed.

Lemma tree_of_total fuel : forall st i,
  well_formed st = true -> i < length st -> length st <= fuel + i ->
  exists t, tree_of fuel st i = Some t /\ tree_ok t.
Proof.
  induction fuel as [|f IH]; intros st i Hwf Hi Hfuel; [simpl in Hfuel; lia|].
  destruct (lookup_lt_is_Some_2 st i Hi) as [n Hn].
  destruct (node_ok_inv _ _ _ (well_formed_lookup st i n Hwf Hn))
    as (Hrep & _ & Hr & Hc & Hclean).
  destruct (mapM_total (tree_of f st) tree_ok (replies n)) as (kids & Hkids & Hok).
  { intros c Hc'. apply Hrep in Hc'. apply IH; [done|lia|lia]. }
  exists (Tree (role n) (content n) (attrs n) kids). split.
  - simpl. by rewrite Hn, Hkids.
  - by constructor.
Qed.

Lemma find_root_total fuel : forall st i,
  well_formed st = true -> i < length st -> i < fuel ->
  exists root, find_root fuel st i = Some root /\ root < length st.
Proof.
  induction fuel as [|f IH]; intros st i Hwf Hi Hfuel; [lia|].
  destruct (lookup_lt_is_Some_2 st i Hi) as [n Hn].
  destruct (node_ok_inv _ _ _ (well_formed_lookup st i n Hwf Hn))
    as (_ & Hpar & _).
  simpl. rewrite Hn. destruct (parent n) as [p|] eqn:Hp.
  - specialize (Hpar p eq_refl). apply IH; [done|lia|lia].
  - by exists i.
Qed.


Lemma well_formed_intro st :
  (forall i n, st !! i = Some n -> node_ok (length st) i n = true) ->
  well_formed st = true.
Proof.
  intros H. unfold well_formed. apply forallb_forall. intros [i n] Hin.
  apply list_elem_of_In, list_elem_of_lookup in Hin as [j Hj].
  rewrite list_lookup_imap in Hj.
  destruct (st !! j) as [m|] eqn:Hm; simpl in Hj; [|done].
  inversion Hj; subst. by apply H.
Qed.

Lemma node_ok_intro len i n :
  (forall c, c ∈ replies n -> i < c < len) ->
  (forall p, parent n = Some p -> p < i) ->
  callable (role n) = false -> callable (content n) = false ->
  (forall k, core_name k = true -> attrs n !! k = None) ->
  node_ok len i n = true.
Proof.
  intros Hrep Hpar Hr Hc Hattrs. unfold node_ok.
  rewrite Hr, Hc. simpl. rewrite !andb_true_r.
  apply andb_true_iff. split; [apply andb_true_iff; split|].
  - apply forallb_forall. intros c Hin%list_elem_of_In%Hrep.
    apply andb_true_iff. split; apply Nat.ltb_lt; lia.
  - destruct (parent n) as [p|]; [|done]. apply Nat.ltb_lt. by apply Hpar.
  - rewrite !andb_true_iff. repeat split; apply bool_decide_eq_true, Hattrs; done.
Qed.

Lemma extras_clean kw old k :
  (forall k, core_name k = true -> old !! k = None) ->
  core_name k = true -> (extras kw ∪ old) !! k = None.
Proof.
  intros Hold Hk. apply lookup_union_None. split; [|by apply Hold].
  unfold extras. apply map_lookup_filter_None. right. intros v _. simpl. congruence.
Qed.

Lemma add_reply_well_formed st self c r kw st' new :
  well_formed st = true -> callable c = false -> callable r = false ->
  add_reply st self c r kw = Some (st', new) ->
  well_formed st' = true.
Proof.
  intros Hwf Hc Hr. unfold add_reply.
  destruct (st !! self) as [n|] eqn:Hn; [|done].
  pose proof (lookup_lt_Some _ _ _ Hn) as Hlt.
  destruct (node_ok_inv _ _ _ (well_formed_lookup st self n Hwf Hn))
    as (Hrep & Hpar & _ & _ & Hclean).
  destruct (is_empty n); intros [= <- <-]; apply well_formed_intro; intros i m Hi.
  - rewrite length_insert. destruct (decide (i = self)) as [->|Hne].
    + rewrite list_lookup_insert_eq in Hi by done. inversion Hi; subst.
      apply node_ok_intro; simpl; try done.
      * intros x Hx. by apply elem_of_nil in Hx.
      * intros k Hk. by apply extras_clean.
    + rewrite list_lookup_insert_ne in Hi by done. by apply well_formed_lookup.
  - rewrite length_insert, length_app. simpl.
    destruct (decide (i = self)) as [->|Hne].
    + rewrite list_lookup_insert_eq in Hi by (rewrite length_app; simpl; lia).
      inversion Hi; subst.
      destruct (node_ok_inv _ _ _ (well_formed_lookup st self n Hwf Hn))
        as (_ & _ & Hrn & Hcn & _).
      apply node_ok_intro; simpl; try done.
      intros x Hx. apply elem_of_app in Hx as [Hx|Hx].
      * apply Hrep in Hx. lia.
      * apply list_elem_of_singleton in Hx. lia.
    + rewrite list_lookup_insert_ne in Hi by done.
      destruct (decide (i < length st)) as [Hl|Hl].
      * rewrite lookup_app_l in Hi by done.
        destruct (node_ok_inv _ _ _ (well_formed_lookup st i m Hwf Hi))
          as (Hrep' & Hpar' & Hrm & Hcm & Hclean').
        apply node_ok_intro; try done. intros x Hx. apply Hrep' in Hx. lia.
      * rewrite lookup_app_r in Hi by lia.
        destruct (i - length st) as [|j] eqn:Hj; simpl in Hi; [|by destruct j].
        inversion Hi; subst. apply node_ok_intro; simpl; try done.
        -- intros x Hx. by apply elem_of_nil in Hx.
        -- intros p [= <-]. lia.
        -- intros k Hk. by apply extras_clean.
Qed.

(** Every tree grown from the sentinel by [add_reply] calls whose role
    and content arguments are data is well formed. *)
Lemma run_well_formed calls : forall st cur st' cur',
  well_formed st = true ->
  Forall (fun c => callable (rc_content c) = false /\ callable (rc_role c) = false)
         calls ->
  run calls st cur = Some (st', cur') ->
  well_formed st' = true.
Proof.
  induction calls as [|c calls IH]; intros st cur st' cur' Hwf Hcalls; simpl.
  - by intros [= <- <-].
  - inversion Hcalls as [|c' calls' [Hc Hr] Hrest]; subst.
    destruct (add_reply _ _ _ _ _) as [[st1 cur1]|] eqn:Hadd; [|done].
    intros Hrun. eapply IH; [|done|exact Hrun].
    exact (add_reply_well_formed _ _ _ _ _ _ _ Hwf Hc Hr Hadd).
Qed.

Lemma well_formed_parents_older st :
  well_formed st = true -> parents_older st.
Proof.
  intros Hwf i n p Hi Hp.
  destruct (node_ok_inv _ _ _ (well_formed_lookup st i n Hwf Hi)) as (_ & Hpar & _).
  by apply Hpar.
Qed.



(** From the leaf of the first branch the record written is that of the
    whole conversation: four nodes, both branches. *)
Example root_dict_from_leaf :
  find_root (length branching_store) branching_store 3 = Some 0 /\
  (tsize <$> tree_of (length branching_store) branching_store 0) = Some 4 /\
  root_dict (length branching_store) branching_store 3 =
    dict_of <$> tree_of (length branching_store) branching_store 0.
Proof. repeat split; vm_compute; reflexivity. Qed.

End Serialization.

(** ** Content merge *)

Section ContentMerge.
Import Merge.







Lemma split_last_snoc e :
  match split_last e with
  | None => e = []
  | Some (front, last) => e = front ++ [last]
  end.
Proof.
  induction e as [|x e IH]; simpl; [done|].
  destruct (split_last e) as [[front last]|]; subst; done.
Qed.









End ContentMerge.

(** ** Tool dispatch *)

Section ToolDispatch.
Import TH.
Context {W : Type}.

Lemma dispatch_loop_executes (blocks : list block) :
  forall (h : handler W) (w : W),
  exists r h' w' stop rs,
    dispatch_loop (generate_request_schema blocks) h w = (r, h', w') /\
    tools h' = tools h /\ function_map h' = function_map h /\
    executes (function_map h) (generate_request_schema blocks) w rs w' stop /\
    results h' = results h ++ rs /\
    requests h' = requests h ++ take (length rs) (generate_request_schema blocks) /\
    match stop with
    | None => r = Ok tt /\ length rs = length (generate_request_schema blocks)
    | Some e => r = Raise e /\ length rs < length (generate_request_schema blocks)
    end.
Proof.
  induction blocks as [|b blocks IH]; intros h w.
  - exists (Ok tt), h, w, None, []. simpl. rewrite !app_nil_r.
    repeat split; constructor.
  - destruct b as [text|id name input|ty]; [apply IH| |apply IH].
    cbn [generate_request_schema dispatch_loop].
    unfold tool_name_and_input. cbn [Merge.subscript dict_get String.eqb Ascii.eqb Bool.eqb].
    cbn [call_tool].
    destruct (function_map h !! name) as [f|] eqn:Hf.
    2:{ exists (Raise (KeyError name)), h, w, (Some (KeyError name)), [].
        simpl. rewrite !app_nil_r. repeat split; try done; try lia.
        by constructor. }
    destruct (f input w) as [[out|e] w1] eqn:Hcall.
    2:{ exists (Raise e), h, w1, (Some e), [].
        simpl. rewrite !app_nil_r. repeat split; try done; try lia.
        by econstructor. }
    set (h1 := add_result (add_request h _) _).
    destruct (IH h1 w1) as (r & h' & w' & stop & rs & Hloop & Ht & Hfm & Hex & Hres & Hreq & Hstop).
    exists r, h', w', stop,
      (VDict [("type", VStr "tool_result"); ("tool_use_id", VStr id);
              ("content", out)] :: rs).
    split; [done|]. split; [done|]. split; [done|]. split.
    { econstructor; eauto. }
    split. { rewrite Hres. unfold h1. simpl. by rewrite <- app_assoc. }
    split. { rewrite Hreq. unfold h1. simpl. by rewrite <- app_assoc. }
    destruct stop; simpl; destruct Hstop; split; auto; lia.
Qed.

Lemma generate_request_schema_uses blocks :
  TH.generate_request_schema blocks = map request_of (tool_uses blocks).
Proof.
  induction blocks as [|b blocks IH]; [done|].
  destruct b; simpl; by rewrite ?IH.
Qed.

Lemma executes_aligned (fm : gmap string (tool W)) uses :
  forall w rs w' stop,
  executes fm (map request_of uses) w rs w' stop ->
  forall i id name input,
    uses !! i = Some (id, name, input) -> i < length rs ->
    exists out, rs !! i = Some (tool_result id out).
Proof.
  induction uses as [|[[id0 name0] input0] uses IH]; intros w rs w' stop Hex i id name input Hi Hlt.
  - done.
  - cbn [map request_of] in Hex. unfold tool_use in Hex.
    inversion Hex; subst; simpl in Hlt; try lia.
    destruct i as [|i]; simpl in Hi.
    + injection Hi as <- <- <-. eexists. reflexivity.
    + simpl. eapply IH; [eassumption|exact Hi|lia].
Qed.

(** C7, amended: [handle_response] clears the buffers, then runs the
    tool-use blocks of the response, all of them and in the order the
    provider emitted them.  Each tool is looked up by the block's name
    and called with the block's input as keyword arguments.  A name
    missing from [function_map] stops the batch with the [KeyError] of
    the lookup; an exception raised by a tool stops it with that same
    exception, unwrapped; in both cases no later request is run (the
    world is the one the failing step left) and the requests and results
    completed before stay in the handler's buffers.  When nothing stops
    the batch, the call returns one request per tool-use block and one
    result per request, which are also the handler's buffers; the result
    at each index carries the id of the block at that index. *)
Theorem handle_response_dispatch (h : handler W) (response_content : list block) (w : W) :
  let uses := tool_uses response_content in
  let reqs := map request_of uses in
  exists r h' w' stop,
    handle_response h response_content w = (r, h', w') /\
    tools h' = tools h /\ function_map h' = function_map h /\
    executes (function_map h) reqs w (results h') w' stop /\
    requests h' = take (length (results h')) reqs /\
    (forall i id name input,
       uses !! i = Some (id, name, input) -> i < length (results h') ->
       exists out, results h' !! i = Some (tool_result id out)) /\
    match stop with
    | None =>
        r = Ok (reqs, results h') /\
        requests h' = reqs /\
        length (results h') = length uses
    | Some e =>
        r = Raise e /\
        length (results h') < length uses
    end.
Proof.
  intros uses reqs.
  destruct (dispatch_loop_executes response_content (clear h) w)
    as (r & h' & w' & stop & rs & Hloop & Ht & Hfm & Hex & Hres & Hreq & Hstop).
  simpl in Hres, Hreq. subst rs.
  rewrite generate_request_schema_uses in Hex, Hreq, Hstop.
  fold uses in Hex, Hreq, Hstop. fold reqs in Hex, Hreq, Hstop.
  assert (length reqs = length uses) as Hlen_reqs by apply length_map.
  unfold handle_response. rewrite Hloop.
  exists (match stop with
          | None => Ok (requests h', results h')
          | Some e => Raise e
          end), h', w', stop.
  split; [by destruct stop as [e|]; destruct Hstop as [-> _]|].
  split; [done|]. split; [done|]. split; [done|]. split; [done|].
  split; [by apply (executes_aligned _ _ _ _ _ _ Hex)|].
  destruct stop as [e|]; destruct Hstop as [_ Hlen].
  - split; [done|lia].
  - assert (requests h' = reqs) as Hall.
    { rewrite Hreq, Hlen. apply firstn_all. }
    rewrite Hall. split; [done|]. split; [done|lia].
Qed.

End ToolDispatch.

(** C7, counterexample: there is no UnknownTool and no
    ToolExecutionError to tell apart.  A request for a name that is not
    registered and a request for a registered tool that raises a
    KeyError of its own end in the same exception (only the journal
    shows that the second tool ran); and a batch stopped at its second
    request leaves the first request and its result in the buffers. *)
Lemma handle_response_dispatch_counterexample :
  (TH.handle_response lookup_handler [TH.ToolUseBlock "1" "missing" []] []).1
    = (Raise (KeyError "missing"), lookup_handler) /\
  (TH.handle_response lookup_handler [TH.ToolUseBlock "1" "lookup" []] []).1
    = (Raise (KeyError "missing"), lookup_handler) /\
  (TH.handle_response lookup_handler [TH.ToolUseBlock "1" "missing" []] []).2 = [] /\
  (TH.handle_response lookup_handler [TH.ToolUseBlock "1" "lookup" []] []).2 = ["lookup"] /\
  let '(r, h', journal) :=
    TH.handle_response lookup_handler
      [TH.ToolUseBlock "1" "add" [("a", VStr "2"); ("b", VStr "3")];
       TH.ToolUseBlock "2" "lookup" [];
       TH.ToolUseBlock "3" "add" [("a", VStr "4"); ("b", VStr "5")]] [] in
  r = Raise (KeyError "missing") /\ journal = ["add"; "lookup"] /\
  TH.requests h' = [tool_use "1" "add" [("a", VStr "2"); ("b", VStr "3")]] /\
  TH.results h' = [tool_result "1" (VStr "2+3")].
Proof.
  split; [reflexivity|]. split; [reflexivity|]. split; [reflexivity|].
  split; [reflexivity|]. vm_compute. done.
Qed.

Example handle_response_add :
  TH.handle_response add_handler
    [TH.TextBlock "let me compute";
     TH.ToolUseBlock "1" "add" [("a", VStr "2"); ("b", VStr "3")]] []
  = (Ok ([VDict [("type", VStr "tool_use"); ("id", VStr "1"); ("name", VStr "add");
                 ("input", VDict [("a", VStr "2"); ("b", VStr "3")])]],
         [VDict [("type", VStr "tool_result"); ("tool_use_id", VStr "1");
                 ("content", VStr "2+3")]]),
     TH.mkHandler [] (<["add" := add_tool]> ∅)
       [VDict [("type", VStr "tool_use"); ("id", VStr "1"); ("name", VStr "add");
               ("input", VDict [("a", VStr "2"); ("b", VStr "3")])]]
       [VDict [("type", VStr "tool_result"); ("tool_use_id", VStr "1");
               ("content", VStr "2+3")]],
     ["add"]).
Proof. reflexivity. Qed.

Example handle_response_aborts :
  let '(r, h', journal) :=
    TH.handle_response add_handler
      [TH.ToolUseBlock "1" "add" [("a", VStr "2"); ("b", VStr "3")];
       TH.ToolUseBlock "2" "missing" [];
       TH.ToolUseBlock "3" "add" [("a", VStr "4"); ("b", VStr "5")]] [] in
  r = Raise (KeyError "missing") /\ journal = ["add"] /\
  length (TH.requests h') = 1 /\ length (TH.results h') = 1.
Proof. vm_compute. done. Qed.

(** ** Send with retry *)

Section RetryLoop.
Import AM.
Context {R : Type}.

Lemma retry_loop_skip (create : nat -> create_dict -> result R) payload k :
  forall start n tr,
  (forall a, start <= a < start + k ->
     exists e, create a payload = Raise e /\ transient e = true) ->
  start + k <= max_retries - 1 ->
  retry_loop create payload (seq start (k + n)) tr =
  retry_loop create payload (seq (start + k) n)
    (mkTrace (attempts tr + k)
       (delays tr ++ map (fun a => (base_delay * 2 ^ Z.of_nat a)%Z) (seq start k))
       (debug_printed tr)).
Proof.
  induction k as [|k IH]; intros start n tr Hfail Hlt.
  - destruct tr. simpl. by rewrite !Nat.add_0_r, app_nil_r.
  - cbn [Nat.add seq retry_loop].
    destruct (Hfail start ltac:(lia)) as (e & -> & ->).
    assert (Nat.eqb start (max_retries - 1) = false) as ->
      by (apply Nat.eqb_neq; lia).
    rewrite IH by (intros; try apply Hfail; lia). cbn [attempts delays debug_printed].
    replace (S start + k) with (start + S k) by lia.
    f_equal. f_equal; [lia|]. by rewrite <- app_assoc.
Qed.

Lemma retry_loop_prefix (create : nat -> create_dict -> result R) payload k :
  fails_first create payload k -> k < max_retries ->
  send_with_retry create payload =
  retry_loop create payload (seq k (max_retries - k)) (mkTrace k (backoff k) None).
Proof.
  intros Hfail Hk. unfold send_with_retry.
  assert (max_retries = k + (max_retries - k)) as Hsplit by lia.
  rewrite Hsplit at 1.
  rewrite retry_loop_skip; [done| |unfold max_retries in *; lia].
  intros a Ha. apply Hfail. lia.
Qed.

(** C5, amended: if the first [k < 25] calls raise InternalServerError or
    RateLimitError and call [k] returns, the send returns that response
    after exactly [k + 1] calls; if call [k] raises any other exception,
    that exception propagates at once, after [k + 1] calls; if all 25
    calls raise an exception of a retried class, the send fails after
    exactly 25 calls by re-raising the provider's last exception, the
    payload having been printed. *)
Theorem send_with_retry_attempts (create : nat -> create_dict -> result R)
                                 (payload : create_dict) :
  (forall k r,
     k < max_retries -> fails_first create payload k ->
     create k payload = Ok r ->
     send_with_retry create payload = (Ok r, mkTrace (S k) (backoff k) None)) /\
  (forall k e,
     k < max_retries -> fails_first create payload k ->
     create k payload = Raise e -> transient e = false ->
     send_with_retry create payload = (Raise e, mkTrace (S k) (backoff k) None)) /\
  (fails_first create payload max_retries ->
     exists e,
       create (max_retries - 1) payload = Raise e /\ transient e = true /\
       send_with_retry create payload =
         (Raise e, mkTrace max_retries (backoff (max_retries - 1)) (Some payload))).
Proof.
  split; [|split].
  - intros k r Hk Hfail Hok. rewrite (retry_loop_prefix _ _ k Hfail Hk).
    destruct (max_retries - k) as [|m] eqn:Hm; [lia|].
    cbn [seq retry_loop]. by rewrite Hok.
  - intros k e Hk Hfail Hraise Hfatal. rewrite (retry_loop_prefix _ _ k Hfail Hk).
    destruct (max_retries - k) as [|m] eqn:Hm; [lia|].
    cbn [seq retry_loop]. by rewrite Hraise, Hfatal.
  - intros Hfail. destruct (Hfail (max_retries - 1) ltac:(unfold max_retries; lia))
      as (e & He & Ht).
    exists e. split; [done|]. split; [done|].
    rewrite (retry_loop_prefix _ _ (max_retries - 1)).
    + change (max_retries - (max_retries - 1)) with 1.
      cbn [seq retry_loop]. rewrite He, Ht. by rewrite Nat.eqb_refl.
    + intros a Ha. apply Hfail. lia.
    + unfold max_retries. lia.
Qed.

End RetryLoop.

(** C5, counterexample: against a provider that always answers with
    RateLimitError, the exception that leaves the send after 25 calls is
    that RateLimitError itself, an exception of the retried class that
    carries no payload; it is not the exception of line 152. *)
Lemma send_with_retry_attempts_counterexample :
  fails_first always_rate_limited sample_payload AM.max_retries /\
  AM.send_with_retry always_rate_limited sample_payload =
    (Raise (ApiError RateLimitError),
     AM.mkTrace 25 (backoff 24) (Some sample_payload)) /\
  AM.transient (ApiError RateLimitError) = true /\
  fst (AM.send_with_retry always_rate_limited sample_payload) <>
    Raise (Exception "Max retries reached. Unable to send message.").
Proof.
  split; [intros a _; by eexists|].
  split; [vm_compute; reflexivity|]. split; [reflexivity|].
  vm_compute. discriminate.
Qed.

Lemma send_with_retry_attempts_witness :
  AM.send_with_retry flaky_twice sample_payload =
    (Ok "hi there", AM.mkTrace 3 (backoff 2) None) /\
  exists e,
    always_rate_limited (AM.max_retries - 1) sample_payload = Raise e /\
    AM.transient e = true /\
    AM.send_with_retry always_rate_limited sample_payload =
      (Raise e, AM.mkTrace AM.max_retries (backoff (AM.max_retries - 1))
                           (Some sample_payload)).
Proof.
  destruct (send_with_retry_attempts flaky_twice sample_payload) as (Hok & _ & _).
  destruct (send_with_retry_attempts always_rate_limited sample_payload)
    as (_ & _ & Hall).
  split.
  - apply (Hok 2 "hi there"); [unfold AM.max_retries; lia| |reflexivity].
    intros a Ha. destruct a as [|[|a]]; [by eexists..|lia].
  - apply Hall. intros a _. by eexists.
Defined.

(** ** Building the payload *)

Section PayloadSplice.
Import CN TH AM.
Context {W : Type}.

Lemma walk_app fuel : forall st q acc acc',
  walk fuel st q (acc ++ acc') = (fun r => r ++ acc') <$> walk fuel st q acc.
Proof.
  induction fuel as [|f IH]; intros st q acc acc'; destruct q as [i|]; simpl; try done.
  destruct (st !! i) as [n|]; [|done]. apply (IH st (parent n) (entry n :: acc) acc').
Qed.

Lemma walk_mono fuel : forall fuel' st q acc r,
  walk fuel st q acc = Some r -> fuel <= fuel' -> walk fuel' st q acc = Some r.
Proof.
  induction fuel as [|f IH]; intros fuel' st q acc r; destruct q as [i|].
  - done.
  - rewrite !walk_done. done.
  - destruct fuel' as [|f']; [lia|]. simpl.
    destruct (st !! i) as [n|]; [|done]. intros H Hle. eapply IH; [done|lia].
  - rewrite !walk_done. done.
Qed.

Lemma walk_frame fuel : forall st st' q acc bound,
  parents_older st ->
  (forall j, j < bound -> st' !! j = st !! j) ->
  (forall x, q = Some x -> x < bound) ->
  walk fuel st' q acc = walk fuel st q acc.
Proof.
  induction fuel as [|f IH]; intros st st' q acc bound Hwf Hsame Hq;
    destruct q as [i|]; simpl; try done.
  specialize (Hq i eq_refl). rewrite Hsame by done.
  destruct (st !! i) as [n|] eqn:Hi; [|done].
  apply (IH st st' (parent n) _ bound Hwf Hsame).
  intros x Hx. specialize (Hwf _ _ _ Hi Hx). lia.
Qed.

Lemma walk_ancestors st q :
  parents_older st ->
  (forall x, q = Some x -> x < length st) ->
  forall fuel, (forall x, q = Some x -> x < fuel) ->
  exists front, walk fuel st q [] = Some front.
Proof.
  intros Hwf Hq fuel Hfuel. destruct q as [x|]; [|exists []; apply walk_done].
  destruct (lookup_lt_is_Some_2 st x (Hq x eq_refl)) as [m Hm].
  destruct (walk_root_path fuel st x m [] Hwf Hm (Hfuel x eq_refl))
    as (path & _ & Hwalk & _).
  eauto.
Qed.

Lemma as_segments_segs c l : segs c = Some l -> as_segments c = VList l.
Proof. destruct c; simpl; congruence. Qed.

(** C2, amended: when the payload is built with pending requests and
    results, the requests are appended to the content of the parent of
    the current node (the second-to-last message), the results are put in
    front of the content of the current node (the last message), both
    buffers are then cleared before anything is sent, and building the
    payload again from the state so reached splices nothing a second
    time: it yields the same payload and leaves the tree as it is.  The
    spliced entries stay in the two nodes, hence in every later payload
    that runs through them. *)
Theorem build_payload_splices st (h : handler W) conversation n p pn lp lc
    model max_tokens temperature system_message :
  well_formed st = true ->
  st !! conversation = Some n -> parent n = Some p -> st !! p = Some pn ->
  segs (content pn) = Some lp -> segs (content n) = Some lc ->
  requests h <> [] -> results h <> [] ->
  exists front payload st',
    walk (length st) st (parent pn) [] = Some front /\
    build_payload (length st) st (Some h) conversation
                  model max_tokens temperature system_message
      = Some (Ok payload, st', Some (clear h)) /\
    cd_messages payload =
      front ++ [mkMessage (role pn) (VList (lp ++ requests h));
                mkMessage (role n) (VList (results h ++ lc))] /\
    requests (clear h) = [] /\ results (clear h) = [] /\
    build_payload (length st') st' (Some (clear h)) conversation
                  model max_tokens temperature system_message
      = Some (Ok payload, st', Some (clear h)).
Proof.
  intros Hwf%well_formed_parents_older Hn Hp Hpn Hlp Hlc Hrq Hrs.
  pose proof (Hwf _ _ _ Hn Hp) as Hlt.
  pose proof (lookup_lt_Some _ _ _ Hn) as Hconv.
  pose proof (lookup_lt_Some _ _ _ Hpn) as Hplt.
  set (pn' := set_content pn (VList (lp ++ requests h))).
  set (n' := set_content n (VList (results h ++ lc))).
  set (st1 := <[p := pn']> st).
  set (st2 := <[conversation := n']> st1).
  assert (st1 !! conversation = Some n) as Hn1.
  { unfold st1. rewrite list_lookup_insert_ne by lia. done. }
  assert (st2 !! conversation = Some n') as Hn2.
  { unfold st2. apply list_lookup_insert_eq. unfold st1. by rewrite length_insert. }
  assert (st2 !! p = Some pn') as Hp2.
  { unfold st2. rewrite list_lookup_insert_ne by lia.
    unfold st1. by apply list_lookup_insert_eq. }
  assert (length st2 = length st) as Hlen.
  { unfold st2, st1. by rewrite !length_insert. }
  assert (forall j, j < p -> st2 !! j = st !! j) as Hsame.
  { intros j Hj. unfold st2, st1. by rewrite !list_lookup_insert_ne by lia. }
  assert (forall x, parent pn = Some x -> x < p) as Hgp.
  { intros x Hx. exact (Hwf _ _ _ Hpn Hx). }
  destruct (walk_ancestors st (parent pn) Hwf
              ltac:(intros x Hx; specialize (Hgp x Hx); lia)
              (length st - 2)
              ltac:(intros x Hx; specialize (Hgp x Hx); lia)) as [front Hfront].
  assert (forall fuel, length st <= fuel ->
            build_messages fuel st2 conversation =
            Some (front ++ [entry pn'; entry n'])) as Hbuild.
  { intros fuel Hfuel. unfold build_messages. rewrite Hn2.
    assert (is_empty n' = false) as ->.
    { unfold is_empty, n'. simpl. apply andb_false_r. }
    destruct fuel as [|[|f]]; [lia..|].
    cbn [walk]. rewrite Hn2. cbn [walk parent n' set_content]. rewrite Hp.
    rewrite Hp2. cbn [parent pn' set_content app].
    rewrite (walk_frame f st st2 (parent pn) _ p Hwf Hsame Hgp).
    change [entry pn'; entry n'] with ([] ++ [entry pn'; entry n']).
    rewrite (walk_app f st (parent pn) [] [entry pn'; entry n']).
    rewrite (walk_mono _ f _ _ _ _ Hfront) by lia. done. }
  exists front, (mkCreate model max_tokens temperature
                   (front ++ [entry pn'; entry n'])
                   (match system_message with Some "" => None | o => o end)
                   (match tools h with [] => None | ts => Some ts end)), st2.
  split; [eapply walk_mono; [exact Hfront|lia]|].
  split; [|split; [done|split; [done|split; [done|]]]].
  - unfold build_payload, splice_requests, splice_results.
    destruct (requests h) as [|rq rqs] eqn:Erq; [done|].
    rewrite Hn, Hp, Hpn, (as_segments_segs _ _ Hlp).
    destruct (results h) as [|rs rss] eqn:Ers; [done|].
    fold pn'. fold st1. rewrite Hn1, (as_segments_segs _ _ Hlc).
    fold n'. fold st2. rewrite Hbuild by lia. done.
  - unfold build_payload, splice_requests, splice_results. simpl.
    rewrite Hbuild by lia. done.
Qed.

End PayloadSplice.

(** C2, counterexample: the request and the result embedded in the
    payload of one send are embedded again in the payload of the next
    turn, built after the buffers were cleared. *)
Lemma build_payload_splices_counterexample :
  exists payload1 st1 h1 st2 cur payload2,
    AM.build_payload (length tool_store) tool_store (Some pending_handler) 2
      (VStr "claude-3-5-sonnet-20240620") (VInt 4096) (VStr "0.3") None
      = Some (Ok payload1, st1, Some h1) /\
    TH.requests h1 = [] /\ TH.results h1 = [] /\
    CN.run_current [ (VStr "5", VStr "assistant", ∅) ;
                     (VStr "thanks", VStr "user", ∅) ] st1 2 = Some (st2, cur) /\
    AM.build_payload (length st2) st2 (Some h1) cur
      (VStr "claude-3-5-sonnet-20240620") (VInt 4096) (VStr "0.3") None
      = Some (Ok payload2, st2, Some h1) /\
    AM.embedded add_request_1 payload1 /\ AM.embedded add_request_1 payload2 /\
    AM.embedded add_result_1 payload1 /\ AM.embedded add_result_1 payload2.
Proof.
  do 6 eexists.
  split; [reflexivity|]. split; [reflexivity|]. split; [reflexivity|].
  split; [reflexivity|]. split; [reflexivity|].
  split; [|split; [|split]].
  - exists 1. do 2 eexists. split; [reflexivity|]. split; [reflexivity|].
    apply list_elem_of_In. simpl. auto.
  - exists 1. do 2 eexists. split; [reflexivity|]. split; [reflexivity|].
    apply list_elem_of_In. simpl. auto.
  - exists 2. do 2 eexists. split; [reflexivity|]. split; [reflexivity|].
    apply list_elem_of_In. simpl. auto.
  - exists 2. do 2 eexists. split; [reflexivity|]. split; [reflexivity|].
    apply list_elem_of_In. simpl. auto.
Qed.

Lemma build_payload_splices_witness :
  CN.well_formed tool_store = true /\
  exists front payload st',
    CN.walk (length tool_store) tool_store (Some 0) [] = Some front /\
    AM.build_payload (length tool_store) tool_store (Some pending_handler) 2
      (VStr "claude-3-5-sonnet-20240620") (VInt 4096) (VStr "0.3") None
      = Some (Ok payload, st', Some (TH.clear pending_handler)) /\
    AM.cd_messages payload =
      front ++ [CN.mkMessage (VStr "assistant")
                  (VList ([Merge.text_segment "Let me add."] ++ [add_request_1]));
                CN.mkMessage (VStr "user")
                  (VList ([add_result_1] ++
                          [Merge.text_segment "(auto for 7 more tool calls max)"]))] /\
    TH.requests (TH.clear pending_handler) = [] /\
    TH.results (TH.clear pending_handler) = [] /\
    AM.build_payload (length st') st' (Some (TH.clear pending_handler)) 2
      (VStr "claude-3-5-sonnet-20240620") (VInt 4096) (VStr "0.3") None
      = Some (Ok payload, st', Some (TH.clear pending_handler)).
Proof.
  split; [reflexivity|].
  exact (build_payload_splices tool_store pending_handler 2
           (CN.mkNode (VStr "user") (VStr "(auto for 7 more tool calls max)") ∅ []
                      (Some 1))
           1
           (CN.mkNode (VStr "assistant") (VStr "Let me add.") ∅ [2] (Some 0))
           [Merge.text_segment "Let me add."]
           [Merge.text_segment "(auto for 7 more tool calls max)"]
           (VStr "claude-3-5-sonnet-20240620") (VInt 4096) (VStr "0.3") None
           eq_refl eq_refl eq_refl eq_refl eq_refl eq_refl
           ltac:(discriminate) ltac:(discriminate)).
Defined.

(** ** The agent *)

Section Respond.
Import Bot.
Context {W X : Type}.

Lemma add_reply_node st self c r kw st' new :
  CN.add_reply st self c r kw = Some (st', new) ->
  exists n, st' !! new = Some n /\ CN.content n = c /\ CN.role n = r.
Proof.
  unfold CN.add_reply. destruct (st !! self) as [n|] eqn:Hn; [|done].
  pose proof (lookup_lt_Some _ _ _ Hn) as Hlt.
  destruct (CN.is_empty n); intros [= <- <-].
  - eexists. split; [by apply list_lookup_insert_eq|by split].
  - eexists. split.
    + rewrite list_lookup_insert_ne by lia.
      rewrite lookup_app_r by lia. by rewrite Nat.sub_diag.
    + by split.
Qed.

(** C6, amended: [_cvsn_respond] appends the user turn, makes it the
    current node and only then sends.  If the transport cycle raises,
    the exception propagates and the call ends in exactly the state the
    transport left: no reply node is appended and nothing is undone, so
    the user turn handed to the transport stays in the tree.  If the
    cycle resolves, the reply node is appended afterwards, to the node
    that is current then. *)
Theorem cvsn_respond_failure (tr : transport W X) (b : bot W X)
    text r cur st_u cur_u msgs :
  conversation b = Some cur ->
  CN.add_reply (st b) cur (VStr text) r ∅ = Some (st_u, cur_u) ->
  CN.build_messages (length st_u) st_u cur_u = Some msgs ->
  let sent := with_log (with_tree b st_u (Some cur_u)) (log b ++ [OUTGOING msgs]) in
  (exists n, st sent !! cur_u = Some n /\ CN.content n = VStr text /\ CN.role n = r) /\
  conversation sent = Some cur_u /\
  (forall e b2,
     tr sent = (Raise e, b2) ->
     _cvsn_respond tr (Some text) r b = Some (Raise e, b2)) /\
  (forall response_text response_role extra_data b2 c2 st_r cur_r,
     tr sent = (Ok (response_text, response_role, extra_data), b2) ->
     extra_data !! "content" = None -> extra_data !! "role" = None ->
     conversation b2 = Some c2 ->
     CN.add_reply (st b2) c2 (VStr response_text) response_role extra_data
       = Some (st_r, cur_r) ->
     _cvsn_respond tr (Some text) r b =
       Some (Ok response_text,
             with_tree (with_log b2 (log b2 ++
                          [INCOMING response_text response_role extra_data]))
                       st_r (Some cur_r))).
Proof.
  intros Hcur Hadd Hmsgs sent.
  assert (conversation_add_reply (VStr text) r ∅ b
          = Some (Ok tt, with_tree b st_u (Some cur_u))) as Huser.
  { unfold conversation_add_reply. rewrite Hcur.
    rewrite bool_decide_eq_false_2.
    - by rewrite Hadd.
    - rewrite !lookup_empty. intros [[? ?]|[? ?]]; discriminate. }
  assert (forall out b2, tr sent = (out, b2) ->
            send_message tr (with_tree b st_u (Some cur_u)) =
            Some (match out with
                  | Raise e => (Raise e, b2)
                  | Ok (t, rr, extra) =>
                      (Ok (t, rr, extra), with_log b2 (log b2 ++ [INCOMING t rr extra]))
                  end)) as Hsend.
  { intros out b2 Htr. unfold send_message. cbn [conversation with_tree st].
    rewrite Hmsgs.
    match goal with |- context [tr ?x] => change x with sent end.
    rewrite Htr. by destruct out as [[[t rr] extra]|e]. }
  split; [exact (add_reply_node _ _ _ _ _ _ _ Hadd)|]. split; [done|]. split.
  - intros e b2 Htr. unfold _cvsn_respond. rewrite Hcur.
    unfold mbind, M_bind, bind. rewrite Huser, (Hsend _ _ Htr). done.
  - intros t rr extra b2 c2 st_r cur_r Htr Hc Hr Hc2 Hreply.
    unfold _cvsn_respond. rewrite Hcur.
    unfold mbind, M_bind, bind. rewrite Huser, (Hsend _ _ Htr).
    unfold conversation_add_reply. cbn [conversation with_log st].
    rewrite Hc2. rewrite bool_decide_eq_false_2.
    + rewrite Hreply. done.
    + rewrite Hc, Hr. intros [[? ?]|[? ?]]; discriminate.
Qed.

End Respond.

Section Save.
Import Bot.
Context {W X : Type}.

Lemma instance_dict_api_key (b : bot W X) k :
  delete "api_key"
    (filter (fun kv => startswith_underscore kv.1 = false)
            (instance_dict (with_api_key b k))) =
  delete "api_key"
    (filter (fun kv => startswith_underscore kv.1 = false) (instance_dict b)).
Proof.
  apply map_eq. intros i. destruct (decide (i = "api_key")) as [->|Hne].
  - by rewrite !lookup_delete_eq.
  - rewrite !lookup_delete_ne by done. rewrite !map_lookup_filter.
    unfold instance_dict. by rewrite !(lookup_insert_ne _ "api_key") by done.
Qed.

(** C9: the record [save] hands to [json.dump] is the same whatever the
    value of [api_key] (so is the file name, and so is a failure), and
    when [save] succeeds the record has no item named api_key. *)
Theorem save_independent_of_api_key (handler_to_dict : TH.handler W -> value)
    now filename (b : bot W X) k :
  save handler_to_dict now filename (with_api_key b k) =
  save handler_to_dict now filename b /\
  match save handler_to_dict now filename b with
  | Some (Ok (_, data)) => data !! "api_key" = None
  | _ => True
  end.
Proof.
  split.
  - unfold save. rewrite instance_dict_api_key. reflexivity.
  - unfold save. destruct (conversation b) as [c|]; [|done].
    destruct (CN.root_dict _ _ c) as [d|]; [|done].
    destruct (tool_handler b) as [h|]; [|done].
    rewrite lookup_fmap. rewrite !lookup_insert_ne by done.
    rewrite lookup_delete_ne by done. by rewrite lookup_delete_eq.
Qed.

End Save.

(** C4, the code at the failing input: against a transport that reports a
    pending tool request on every reply, in the shape
    [_process_response] produces, [respond] with [tool_auto] sends once
    and returns the first reply; the reply node has a [requests]
    attribute, and no [attributes] attribute for the loop to read. *)
Lemma respond_auto_single_send :
  exists b',
    Bot.respond requesting_transport "hello" (VStr "user") true fresh_bot
      = Some (Ok "calling add", b') /\
    Bot.sends b' = 1 /\
    (exists n, Bot.st b' !! 1 = Some n /\ Bot.conversation b' = Some 1 /\
               CN.attrs n !! "requests" = Some (VList [add_request_1]) /\
               CN.attrs n !! "attributes" = None).
Proof.
  eexists. split; [vm_compute; reflexivity|]. split; [reflexivity|].
  eexists. split; [reflexivity|]. split; [reflexivity|].
  split; vm_compute; reflexivity.
Qed.

(** Whenever the current node has no attribute named 'attributes' after
    the first reply, the automatic mode is the single-turn mode. *)
Lemma respond_auto_needs_attributes (tr : Bot.transport unit unit) content r b res b' :
  Bot._cvsn_respond tr (Some content) r b = Some (Ok res, b') ->
  (forall c n, Bot.conversation b' = Some c -> Bot.st b' !! c = Some n ->
               CN.attrs n !! "attributes" = None) ->
  Bot.respond tr content r true b = Some (Ok res, b').
Proof.
  intros Hfirst Hattrs. unfold Bot.respond, Bot._respond_auto.
  unfold mbind, Bot.M_bind, Bot.bind. rewrite Hfirst.
  cbn [Bot.auto_loop Bot.max_tool_prompts Nat.ltb Nat.leb].
  assert (Bot.pending_requests b' = Ok VNone) as ->; [|done].
  unfold Bot.pending_requests.
  destruct (Bot.conversation b') as [c|] eqn:Hc; [|done].
  destruct (Bot.st b' !! c) as [n|] eqn:Hn; [|done].
  by rewrite (Hattrs c n eq_refl Hn).
Qed.

(** With the extra data under 'attributes' the loop does run: eight
    sends in all, the first with the original text and seven with the
    continuation prompt, and the replies joined into one transcript. *)
Lemma respond_auto_attributes_eight_sends :
  exists b',
    Bot.respond attributes_transport "hello" (VStr "user") true fresh_bot
      = Some (Ok (repeat_reply 7 "calling add"), b') /\
    Bot.sends b' = 8 /\
    prompts b' = VStr "hello" :: map (fun k => VStr (Bot.follow_up k)) (seq 1 7).
Proof.
  eexists. split; [vm_compute; reflexivity|]. split; vm_compute; reflexivity.
Qed.

(** C6, counterexample: a send that fails leaves the tree changed; the
    sentinel has become the user turn. *)
Lemma cvsn_respond_failure_counterexample :
  exists e b',
    Bot._cvsn_respond refusing_transport (Some "hello") (VStr "user") fresh_bot
      = Some (Raise e, b') /\
    Bot.st fresh_bot = [CN.create_empty] /\
    Bot.st b' = [CN.mkNode (VStr "user") (VStr "hello") ∅ [] None] /\
    Bot.st b' <> Bot.st fresh_bot.
Proof.
  do 2 eexists. split; [vm_compute; reflexivity|]. split; [reflexivity|].
  split; [vm_compute; reflexivity|]. vm_compute. discriminate.
Qed.

Lemma cvsn_respond_failure_witness :
  Bot._cvsn_respond refusing_transport (Some "hello") (VStr "user") fresh_bot =
  Some (Raise (ApiError (OtherApiError "AuthenticationError")),
        Bot.with_log
          (Bot.with_tree fresh_bot
             [CN.mkNode (VStr "user") (VStr "hello") ∅ [] None] (Some 0))
          [Bot.OUTGOING [CN.mkMessage (VStr "user") (VStr "hello")]]).
Proof.
  destruct (cvsn_respond_failure refusing_transport fresh_bot "hello" (VStr "user")
              0 [CN.mkNode (VStr "user") (VStr "hello") ∅ [] None] 0
              [CN.mkMessage (VStr "user") (VStr "hello")]
              eq_refl eq_refl eq_refl) as (_ & _ & Hfail & _).
  apply Hfail. reflexivity.
Defined.

(** ** The shape of the tree *)

Section TreeShape.
Import CN.

Lemma acyclic_parents_older st : acyclic st = true -> parents_older st.
Proof.
  unfold acyclic. rewrite forallb_forall. intros H i n p Hi Hp.
  specialize (H (i, n)). simpl in H. rewrite Hp in H. apply Nat.ltb_lt, H.
  apply list_elem_of_In, list_elem_of_lookup. exists i.
  by rewrite list_lookup_imap, Hi.
Qed.

(** Two stores whose nodes below [bound] have the same entry and the
    same parent give the same walk from any node below [bound]. *)
Lemma walk_same_entries fuel : forall st st' q acc bound,
  parents_older st ->
  (forall j n, j < bound -> st !! j = Some n ->
     exists n', st' !! j = Some n' /\ entry n' = entry n /\ parent n' = parent n) ->
  (forall x, q = Some x -> x < bound /\ is_Some (st !! x)) ->
  walk fuel st' q acc = walk fuel st q acc.
Proof.
  induction fuel as [|f IH]; intros st st' q acc bound Hwf Hsame Hq;
    destruct q as [i|]; simpl; try done.
  destruct (Hq i eq_refl) as [Hi [n Hn]].
  destruct (Hsame i n Hi Hn) as (n' & Hn' & He & Hp).
  rewrite Hn, Hn', He, Hp.
  apply (IH st st' (parent n) _ bound Hwf Hsame).
  intros x Hx. pose proof (Hwf _ _ _ Hn Hx). split; [lia|].
  apply lookup_lt_is_Some. apply lookup_lt_Some in Hn. lia.
Qed.

Lemma build_messages_total st i :
  parents_older st -> i < length st ->
  exists msgs, build_messages (length st) st i = Some msgs.
Proof.
  intros Hwf Hi. destruct (lookup_lt_is_Some_2 st i Hi) as [n Hn].
  unfold build_messages. rewrite Hn. destruct (is_empty n); [by eexists|].
  destruct (walk_root_path (length st) st i n [] Hwf Hn Hi) as (path & _ & Hw & _).
  eauto.
Qed.

(** The history of the node [add_reply] returns is the history of the
    node it was called on, followed by the new entry. *)
Lemma add_reply_history st self c r kw st' new :
  parents_older st ->
  add_reply st self c r kw = Some (st', new) ->
  is_empty (init ∅ c r kw) = false ->
  exists msgs,
    build_messages (length st) st self = Some msgs /\
    build_messages (length st') st' new = Some (msgs ++ [mkMessage r c]).
Proof.
  intros Hwf Hadd Hne. unfold add_reply in Hadd.
  destruct (st !! self) as [n|] eqn:Hn; [|done].
  pose proof (lookup_lt_Some _ _ _ Hn) as Hlt.
  destruct (is_empty n) eqn:He; injection Hadd as <- <-.
  - exists []. split; [unfold build_messages; by rewrite Hn, He|].
    unfold build_messages. rewrite list_lookup_insert_eq by done.
    assert (is_empty (init (attrs n) c r kw) = false) as -> by exact Hne.
    rewrite length_insert. destruct (length st) as [|f] eqn:Hlen; [lia|].
    cbn [walk]. rewrite list_lookup_insert_eq by lia. cbn [parent init].
    by rewrite walk_done.
  - destruct (build_messages_total st self Hwf Hlt) as [msgs Hmsgs].
    exists msgs. split; [done|].
    unfold build_messages in Hmsgs. rewrite Hn, He in Hmsgs.
    set (newnode := set_parent (init ∅ c r kw) (Some self)).
    set (st' := <[self := set_replies n (replies n ++ [length st])]> (st ++ [newnode])).
    assert (st' !! length st = Some newnode) as Hnew.
    { unfold st'. rewrite list_lookup_insert_ne by lia.
      rewrite lookup_app_r by lia. by rewrite Nat.sub_diag. }
    assert (length st' = S (length st)) as Hlen.
    { unfold st'. rewrite length_insert, length_app. simpl. lia. }
    unfold build_messages. rewrite Hnew, Hlen.
    assert (is_empty newnode = false) as -> by exact Hne.
    cbn [walk]. rewrite Hnew. cbn [parent newnode set_parent app].
    rewrite (walk_same_entries (length st) st st' (Some self) _ (length st) Hwf).
    + change [entry newnode] with ([] ++ [entry newnode]).
      rewrite walk_app, Hmsgs. done.
    + intros j m Hj Hm. unfold st'. destruct (decide (j = self)) as [->|Hne'].
      * rewrite list_lookup_insert_eq by (rewrite length_app; simpl; lia).
        rewrite Hn in Hm. injection Hm as <-. eauto.
      * rewrite list_lookup_insert_ne by done. rewrite lookup_app_l by done. eauto.
    + intros x [= <-]. split; [done|eauto].
Qed.

(** [add_reply] on a node that is not empty-valued only appends. *)
Lemma add_reply_appends st self n c r kw st' new :
  parents_older st ->
  st !! self = Some n -> is_empty n = false ->
  add_reply st self c r kw = Some (st', new) ->
  new = length st /\ length st' = S (length st) /\
  st' !! self = Some (set_replies n (replies n ++ [new])) /\
  (forall j, j < length st -> j <> self -> st' !! j = st !! j) /\
  (forall j fuel, j < length st ->
     build_messages fuel st' j = build_messages fuel st j).
Proof.
  intros Hwf Hn He Hadd. unfold add_reply in Hadd. rewrite Hn, He in Hadd.
  injection Hadd as <- <-.
  pose proof (lookup_lt_Some _ _ _ Hn) as Hlt.
  set (newnode := set_parent (init ∅ c r kw) (Some self)).
  set (st' := <[self := set_replies n (replies n ++ [length st])]> (st ++ [newnode])).
  assert (forall j, j < length st -> j <> self -> st' !! j = st !! j) as Hother.
  { intros j Hj Hne. unfold st'. rewrite list_lookup_insert_ne by done.
    by rewrite lookup_app_l. }
  assert (st' !! self = Some (set_replies n (replies n ++ [length st]))) as Hself.
  { unfold st'. apply list_lookup_insert_eq. rewrite length_app. simpl. lia. }
  split; [done|]. split; [unfold st'; rewrite length_insert, length_app; simpl; lia|].
  split; [done|]. split; [done|].
  intros j fuel Hj. unfold build_messages.
  assert (forall k m, k < length st -> st !! k = Some m ->
            exists m', st' !! k = Some m' /\ entry m' = entry m /\
                       parent m' = parent m) as Hsame.
  { intros k m Hk Hm. destruct (decide (k = self)) as [->|Hne].
    - rewrite Hn in Hm. injection Hm as <-. rewrite Hself. eauto.
    - rewrite Hother by done. eauto. }
  destruct (lookup_lt_is_Some_2 st j Hj) as [m Hm].
  destruct (Hsame j m Hj Hm) as (m' & Hm' & Hentry & _).
  rewrite Hm, Hm'.
  assert (is_empty m' = is_empty m) as ->.
  { unfold is_empty. unfold entry in Hentry. by injection Hentry as -> ->. }
  destruct (is_empty m); [done|].
  apply (walk_same_entries fuel st st' (Some j) [] (length st) Hwf Hsame).
  intros x [= <-]. split; [done|eauto].
Qed.

Lemma consistent_initial : consistent [create_empty].
Proof.
  intros i n p Hi Hp. destruct i as [|[|i]]; simpl in Hi; try done.
  injection Hi as <-. done.
Qed.

Lemma add_reply_consistent st self c r kw st' new :
  consistent st -> add_reply st self c r kw = Some (st', new) -> consistent st'.
Proof.
  intros Hc Hadd. unfold add_reply in Hadd.
  destruct (st !! self) as [n|] eqn:Hn; [|done].
  pose proof (lookup_lt_Some _ _ _ Hn) as Hlt.
  destruct (is_empty n) eqn:He; injection Hadd as <- <-; intros i m p Hi Hp.
  - destruct (decide (i = self)) as [->|Hne].
    { rewrite list_lookup_insert_eq in Hi by done. injection Hi as <-. done. }
    rewrite list_lookup_insert_ne in Hi by done.
    destruct (Hc i m p Hi Hp) as (Hlt' & pn & Hpn & Hin & Hpe).
    split; [done|]. exists pn. split; [|done].
    rewrite list_lookup_insert_ne; [done|]. intros ->. congruence.
  - assert (forall j x, st !! j = Some x -> j <> self ->
              (<[self := set_replies n (replies n ++ [length st])]>
                 (st ++ [set_parent (init ∅ c r kw) (Some self)])) !! j = Some x)
      as Hkeep.
    { intros j x Hj Hne. rewrite list_lookup_insert_ne by done.
      rewrite lookup_app_l by (by eapply lookup_lt_Some). done. }
    assert ((<[self := set_replies n (replies n ++ [length st])]>
               (st ++ [set_parent (init ∅ c r kw) (Some self)])) !! self
            = Some (set_replies n (replies n ++ [length st]))) as Hself.
    { apply list_lookup_insert_eq. rewrite length_app. simpl. lia. }
    assert (forall q pn, st !! q = Some pn -> i ∈ replies pn -> is_empty pn = false ->
              exists pn', (<[self := set_replies n (replies n ++ [length st])]>
                 (st ++ [set_parent (init ∅ c r kw) (Some self)])) !! q = Some pn' /\
                i ∈ replies pn' /\ is_empty pn' = false) as Hparent.
    { intros q pn Hq Hin Hpe. destruct (decide (q = self)) as [->|Hne].
      - rewrite Hn in Hq. injection Hq as <-. rewrite Hself. eexists.
        split; [done|]. split; [|done]. simpl. apply elem_of_app. by left.
      - rewrite (Hkeep q pn Hq Hne). eauto. }
    destruct (decide (i = self)) as [->|Hne].
    { rewrite Hself in Hi. injection Hi as <-. simpl in Hp.
      destruct (Hc self n p Hn Hp) as (Hlt' & pn & Hpn & Hin & Hpe).
      split; [done|]. by apply (Hparent p pn). }
    rewrite list_lookup_insert_ne in Hi by done.
    destruct (decide (i < length st)) as [Hl|Hl].
    + rewrite lookup_app_l in Hi by done.
      destruct (Hc i m p Hi Hp) as (Hlt' & pn & Hpn & Hin & Hpe).
      split; [done|]. by apply (Hparent p pn).
    + rewrite lookup_app_r in Hi by lia.
      destruct (i - length st) as [|k] eqn:Hk; simpl in Hi; [|by destruct k].
      injection Hi as <-. simpl in Hp. injection Hp as <-.
      assert (i = length st) as -> by lia.
      split; [done|]. rewrite Hself. eexists. split; [done|]. split; [|done].
      simpl. apply elem_of_app. right. by apply list_elem_of_singleton.
Qed.

Lemma run_consistent_from calls : forall st cur st' cur',
  consistent st -> run calls st cur = Some (st', cur') -> consistent st'.
Proof.
  induction calls as [|c calls IH]; intros st cur st' cur' Hc; simpl.
  - by intros [= <- <-].
  - destruct (add_reply _ _ _ _ _) as [[st1 cur1]|] eqn:Hadd; [|done].
    intros Hrun. eapply IH; [|exact Hrun]. by eapply add_reply_consistent.
Qed.

(** X1: [add_reply] extends the history by exactly one entry.  On a
    tree whose parent links point to older objects, the history of the
    node [add_reply] returns is the history of the node it was called
    on followed by the new role and content, whether the call made a
    new node or reinitialized the sentinel (whose history is empty). *)
Theorem add_reply_extends_history st self c r kw st' new :
  acyclic st = true ->
  add_reply st self c r kw = Some (st', new) ->
  r <> VStr "empty" \/ c <> VStr "" ->
  exists msgs,
    build_messages (length st) st self = Some msgs /\
    build_messages (length st') st' new = Some (msgs ++ [mkMessage r c]).
Proof.
  intros Hacyc Hadd Hreal.
  apply (add_reply_history st self c r kw st' new); [by apply acyclic_parents_older|done|].
  destruct (is_empty _) eqn:He; [|done].
  apply is_empty_values in He as [Hr Hc]. simpl in Hr, Hc. by destruct Hreal.
Qed.

Lemma add_reply_extends_history_witness :
  exists st' new,
    add_reply branching_store 3 (VStr "go on") (VStr "assistant") ∅ = Some (st', new) /\
    exists msgs,
      build_messages (length branching_store) branching_store 3 = Some msgs /\
      build_messages (length st') st' new =
        Some (msgs ++ [mkMessage (VStr "assistant") (VStr "go on")]).
Proof.
  eexists _, _. split; [vm_compute; reflexivity|].
  apply (add_reply_extends_history branching_store 3 (VStr "go on") (VStr "assistant") ∅).
  - vm_compute; reflexivity.
  - vm_compute; reflexivity.
  - left. discriminate.
Defined.

(** X2: [add_reply] on a node that is not the sentinel only appends: the
    new node gets the next free reference, the node replied to gains
    that reference at the end of its replies and is otherwise as it
    was, every other node is untouched, and the history of every
    earlier node is what it was (other branches are not disturbed). *)
Theorem add_reply_keeps_branches st self n c r kw st' new :
  acyclic st = true ->
  st !! self = Some n -> is_empty n = false ->
  add_reply st self c r kw = Some (st', new) ->
  new = length st /\ length st' = S (length st) /\
  st' !! self = Some (set_replies n (replies n ++ [new])) /\
  (forall j, j < length st -> j <> self -> st' !! j = st !! j) /\
  (forall j fuel, j < length st ->
     build_messages fuel st' j = build_messages fuel st j).
Proof.
  intros Hacyc. apply add_reply_appends. by apply acyclic_parents_older.
Qed.

Lemma add_reply_keeps_branches_witness :
  exists st',
    add_reply branching_store 1 (VStr "third") (VStr "assistant") ∅ = Some (st', 4) /\
    length st' = 5 /\
    (forall j fuel, j < length branching_store ->
       build_messages fuel st' j = build_messages fuel branching_store j).
Proof.
  eexists. split; [vm_compute; reflexivity|].
  match goal with |- length ?s = 5 /\ _ =>
    destruct (add_reply_keeps_branches branching_store 1
                (mkNode (VStr "assistant") (VStr "hi there")
                        (<["stop_reason" := VStr "end_turn"]> ∅) [3] (Some 0))
                (VStr "third") (VStr "assistant") ∅ s 4)
      as (_ & Hlen & _ & _ & Hsame)
  end.
  - vm_compute; reflexivity.
  - vm_compute; reflexivity.
  - vm_compute; reflexivity.
  - vm_compute; reflexivity.
  - split; [exact Hlen | exact Hsame].
Defined.

(** X3: every tree grown from the sentinel by [add_reply] calls is
    consistent: whenever a node has a parent, that parent is an older
    node, lists the node among its replies, and is not
    empty-valued. *)
Theorem run_consistent calls st cur :
  run calls [create_empty] 0 = Some (st, cur) -> consistent st.
Proof. apply run_consistent_from, consistent_initial. Qed.

Lemma run_consistent_witness : consistent branching_store.
Proof.
  apply (run_consistent branching_calls branching_store 3).
  vm_compute; reflexivity.
Defined.

(** X4: on a tree whose parent links point to older objects [find_root]
    returns from every node: the node it returns has no parent, is the
    first node of the parent path down to the start, is not younger
    than the start, and is its own root. *)
Theorem find_root_reaches_root st i :
  acyclic st = true -> i < length st ->
  exists root m path,
    find_root (length st) st i = Some root /\
    st !! root = Some m /\ parent m = None /\ root <= i /\
    root_path st path i /\ head path = Some root /\
    find_root (length st) st root = Some root.
Proof.
  intros Hacyc Hi. apply acyclic_parents_older in Hacyc.
  destruct (lookup_lt_is_Some_2 st i Hi) as [n Hn].
  destruct (find_root_path (length st) st i n Hacyc Hn Hi)
    as (root & m & path & Hroot & Hm & Hp & Hle & Hpath & Hhead).
  exists root, m, path. repeat split; try done.
  apply (find_root_fixed _ _ _ m); [done|done|lia].
Qed.

Lemma find_root_reaches_root_witness :
  exists root m path,
    find_root (length branching_store) branching_store 3 = Some root /\
    branching_store !! root = Some m /\ parent m = None /\ root <= 3 /\
    root_path branching_store path 3 /\ head path = Some root /\
    find_root (length branching_store) branching_store root = Some root.
Proof.
  apply (find_root_reaches_root branching_store 3).
  - vm_compute; reflexivity.
  - vm_compute; lia.
Defined.

End TreeShape.

(** ** Persisted records *)

Section Records.
Import CN.

Lemma pdict_ind_nested (P : pdict -> Prop) :
  (forall items, P (PDict items None)) ->
  (forall items ds, Forall P ds -> P (PDict items (Some ds))) ->
  forall d, P d.
Proof.
  intros Hnone Hsome. fix IH 1. intros [items [ds|]]; [|apply Hnone].
  apply Hsome. induction ds as [|d ds IHds]; constructor; [apply IH | apply IHds].
Qed.

Lemma hydrate_records ds :
  Forall (fun d => forall st,
            from_dict d st =
            if complete d
            then Ok (st ++ layout (tree_of_dict d) (length st) None, length st)
            else Raise missing_argument) ds ->
  forall pre r c a seen,
    hydrate (length pre) ds
      (pre ++ mkNode r c a (kid_ids seen (S (length pre))) None
           :: layouts seen (S (length pre)) (length pre)) =
    if forallb complete ds
    then Ok (pre ++ mkNode r c a (kid_ids (seen ++ map tree_of_dict ds)
                                          (S (length pre))) None
                 :: layouts (seen ++ map tree_of_dict ds) (S (length pre))
                            (length pre))
    else Raise missing_argument.
Proof.
  induction 1 as [|d ds Hd _ IH]; intros pre r c a seen; simpl.
  - by rewrite app_nil_r.
  - rewrite Hd. destruct (complete d); [|done]. simpl.
    set (self := length pre).
    set (st := pre ++ mkNode r c a (kid_ids seen (S self)) None
                   :: layouts seen (S self) self).
    assert (length st = S self + list_sum (map tsize seen)) as Hlen.
    { unfold st. rewrite length_app. simpl. rewrite length_layouts. unfold self. lia. }
    rewrite set_parent_layout.
    set (L := layout (tree_of_dict d) (length st) (Some self)).
    assert (alter (fun m => set_replies m (replies m ++ [length st])) self (st ++ L) =
            pre ++ mkNode r c a (kid_ids seen (S self) ++ [length st]) None
                :: (layouts seen (S self) self ++ L)) as ->.
    { unfold st. rewrite <- app_assoc. rewrite alter_app_r_alt by (unfold self; lia).
      replace (self - length pre) with 0 by (unfold self; lia). done. }
    specialize (IH pre r c a (seen ++ [tree_of_dict d])).
    rewrite kid_ids_app, layouts_app in IH. simpl in IH.
    rewrite app_nil_r in IH. fold self in IH.
    unfold L. rewrite Hlen.
    replace (S self + list_sum (map tsize seen))
      with (S (self + list_sum (map tsize seen))) by lia.
    rewrite IH. by rewrite <- !app_assoc.
Qed.

Lemma from_dict_records d : forall st,
  from_dict d st =
  if complete d
  then Ok (st ++ layout (tree_of_dict d) (length st) None, length st)
  else Raise missing_argument.
Proof.
  induction d as [items|items ds IH] using pdict_ind_nested; intros st;
    rewrite from_dict_unfold; cbn [complete tree_of_dict].
  - destruct (items !! "content") as [c|]; [|done].
    destruct (items !! "role") as [r|]; [|done].
    rewrite !bool_decide_eq_true_2 by eauto. cbn [andb default].
    rewrite layout_unfold. cbn [kid_ids layouts].
    unfold init. by rewrite (right_id_L ∅ (∪)).
  - destruct (items !! "content") as [c|]; [|done].
    destruct (items !! "role") as [r|]; [|by rewrite andb_false_r].
    rewrite !bool_decide_eq_true_2 by eauto. cbn [andb default].
    pose proof (hydrate_records ds IH st r c (extras items) []) as Hh.
    cbn [kid_ids layouts app] in Hh.
    unfold init. rewrite (right_id_L ∅ (∪)). rewrite Hh.
    destruct (forallb complete ds); [|done]. by rewrite layout_unfold.
Qed.

Lemma from_dict_linked d st :
  complete d = true ->
  from_dict d st = Ok (st ++ layout (tree_of_dict d) (length st) None, length st) /\
  linked (length (st ++ layout (tree_of_dict d) (length st) None))
         (st ++ layout (tree_of_dict d) (length st) None) (length st) None
    = Some (tree_of_dict d).
Proof.
  intros Hc. rewrite from_dict_records, Hc. split; [done|].
  pose proof (linked_layout (tree_of_dict d) st None []
                (length (st ++ layout (tree_of_dict d) (length st) None))) as H.
  rewrite app_nil_r in H. apply H. rewrite length_app, length_layout. lia.
Qed.

Lemma linked_find_root fuel st i t :
  linked fuel st i None = Some t -> find_root fuel st i = Some i.
Proof.
  destruct fuel as [|f]; [done|]. simpl.
  destruct (st !! i) as [n|]; [|done].
  destruct (decide (parent n = None)) as [->|]; done.
Qed.

(** X5: [from_dict] raises TypeError exactly when some record of the
    tree lacks 'content' or 'role'; otherwise it leaves the existing
    objects alone, returns a new node without parent, and the tree below
    that node, back-references included, is the one the records
    describe. *)
Theorem from_dict_outcome d st :
  match from_dict d st with
  | Raise e => complete d = false /\ e = missing_argument
  | Ok (st', root) =>
      complete d = true /\ root = length st /\ take (length st) st' = st /\
      linked (length st') st' root None = Some (tree_of_dict d)
  end.
Proof.
  destruct (complete d) eqn:Hc.
  - destruct (from_dict_linked d st Hc) as [-> Hl].
    split; [done|]. split; [done|]. split; [by rewrite take_app_length|done].
  - by rewrite from_dict_records, Hc.
Qed.

Lemma extras_lookup (kw : gmap string value) k :
  extras kw !! k = if core_name k then None else kw !! k.
Proof.
  unfold extras. rewrite map_lookup_filter.
  destruct (kw !! k) as [v|] eqn:Hk; simpl; [|by destruct (core_name k)].
  case_guard as Hg; cbn [fst] in Hg; destruct (core_name k); simpl; congruence.
Qed.

Lemma canonical_items items r c :
  items !! "role" = Some r -> items !! "content" = Some c ->
  callable r = false -> callable c = false ->
  forallb (fun kv => persisted kv.1 kv.2
                     && negb (String.eqb kv.1 "replies")
                     && negb (String.eqb kv.1 "parent"))
          (map_to_list items) = true ->
  _to_dict_self (mkNode r c (extras items) [] None) = items.
Proof.
  intros Hr Hc Hcr Hcc Hall. rewrite forallb_forall in Hall.
  assert (forall k v, items !! k = Some v ->
            persisted k v = true /\ k <> "replies" /\ k <> "parent") as Hitems.
  { intros k v Hk. specialize (Hall (k, v)). simpl in Hall.
    rewrite !andb_true_iff, !negb_true_iff, !String.eqb_neq in Hall.
    destruct Hall as [[? ?] ?]; [|done].
    apply list_elem_of_In. by apply elem_of_map_to_list. }
  apply map_eq. intros k. rewrite to_dict_self_lookup.
  2:{ intros k' Hk'. rewrite extras_lookup. by rewrite Hk'. }
  destruct (String.eqb_spec k "role") as [->|Hkr]; [by rewrite Hcr|].
  destruct (String.eqb_spec k "content") as [->|Hkc]; [by rewrite Hcc|].
  rewrite map_lookup_filter, extras_lookup.
  destruct (items !! k) as [v|] eqn:Hk.
  - destruct (Hitems k v Hk) as (Hp & Hrep & Hpar).
    assert (core_name k = false) as ->.
    { unfold core_name. apply String.eqb_neq in Hkr, Hkc, Hrep, Hpar.
      by rewrite Hkr, Hkc, Hrep, Hpar. }
    simpl. case_guard as Hg; [done|]. cbn [fst snd] in Hg. congruence.
  - by destruct (core_name k).
Qed.

Lemma dict_of_tree_of_dict d : canonical d = true -> dict_of (tree_of_dict d) = d.
Proof.
  induction d as [items|items ds IH] using pdict_ind_nested;
    cbn [canonical tree_of_dict dict_of]; intros Hc;
    apply andb_true_iff in Hc as [Hc Hrd];
    apply andb_true_iff in Hc as [Hrc Hall];
    destruct (items !! "role") as [r|] eqn:Hr; try done;
    destruct (items !! "content") as [c|] eqn:Hcn; try done;
    apply andb_true_iff in Hrc as [Hcr Hcc];
    apply negb_true_iff in Hcr, Hcc; cbn [from_option id];
    rewrite (canonical_items items r c Hr Hcn Hcr Hcc Hall).
  - done.
  - destruct ds as [|d ds]; [done|]. cbn [map]. do 2 f_equal.
    change (map dict_of (map tree_of_dict (d :: ds)) = d :: ds).
    clear -IH Hrd. induction IH as [|x xs Hx _ IHxs]; [done|].
    simpl in Hrd. apply andb_true_iff in Hrd as [Hx' Hxs'].
    simpl. rewrite Hx by done. f_equal. by apply IHxs.
Qed.

Lemma canonical_complete d : canonical d = true -> complete d = true.
Proof.
  induction d as [items|items ds IH] using pdict_ind_nested;
    cbn [canonical complete]; intros Hc;
    apply andb_true_iff in Hc as [Hc Hrd];
    apply andb_true_iff in Hc as [Hrc _];
    destruct (items !! "role") as [r|]; try done;
    destruct (items !! "content") as [c|]; try done;
    rewrite !bool_decide_eq_true_2 by eauto; cbn [andb]; try done.
  destruct ds as [|d ds]; [done|].
  apply forallb_forall. intros x Hx.
    rewrite forallb_forall in Hrd. rewrite Forall_forall in IH.
  apply IH; [by apply list_elem_of_In|]. by apply Hrd.
Qed.

(** X6: deserialize, then serialize: [from_dict] accepts every record
    that [root_dict] can have written, and [root_dict] on the node it
    returns gives the record back as it was. *)
Theorem from_dict_root_dict d st :
  canonical d = true ->
  exists st' root,
    from_dict d st = Ok (st', root) /\
    root_dict (length st') st' root = Some d.
Proof.
  intros Hc.
  destruct (from_dict_linked d st (canonical_complete d Hc)) as [Hfrom Hlinked].
  eexists _, _. split; [exact Hfrom|].
  unfold root_dict. rewrite (linked_find_root _ _ _ _ Hlinked).
  rewrite (to_dict_tree _ _ _ _ (linked_tree_of _ _ _ _ _ Hlinked)).
  by rewrite dict_of_tree_of_dict.
Qed.

Lemma from_dict_root_dict_witness :
  exists st' root,
    from_dict sample_record branching_store = Ok (st', root) /\
    root_dict (length st') st' root = Some sample_record.
Proof.
  apply (from_dict_root_dict sample_record branching_store).
  vm_compute; reflexivity.
Defined.

(** X7: the node [from_dict] returns is the root of what it built, not
    the last turn: it has no parent, the role and content of the top
    record, and its history is the one entry of the top record, however
    many replies the record holds; only when the top record has the
    values of the empty sentinel is its history empty. *)
Theorem from_dict_returns_root items reply_dicts r c st :
  complete (PDict items reply_dicts) = true ->
  items !! "role" = Some r -> items !! "content" = Some c ->
  exists st' root n,
    from_dict (PDict items reply_dicts) st = Ok (st', root) /\
    st' !! root = Some n /\ parent n = None /\ role n = r /\ content n = c /\
    (is_empty n = true <-> r = VStr "empty" /\ c = VStr "") /\
    build_messages (length st') st' root =
      Some (if is_empty n then [] else [mkMessage r c]).
Proof.
  intros Hcomp Hr Hc. rewrite from_dict_records, Hcomp.
  cbn [tree_of_dict]. rewrite Hr, Hc. cbn [from_option id].
  rewrite layout_unfold.
  set (n := mkNode r c (extras items) _ None).
  set (rest := layouts _ _ _).
  exists (st ++ n :: rest), (length st), n.
  assert ((st ++ n :: rest) !! length st = Some n) as Hn.
  { rewrite lookup_app_r by lia. by rewrite Nat.sub_diag. }
  do 5 (split; [done|]).
  split; [apply (is_empty_values n)|].
  unfold build_messages. rewrite Hn.
  destruct (is_empty n); [done|].
  rewrite length_app. simpl. rewrite Nat.add_succ_r. cbn [walk].
  rewrite Hn. cbn [parent n]. by rewrite walk_done.
Qed.

Lemma from_dict_returns_root_witness :
  exists st' root n,
    from_dict sample_record [] = Ok (st', root) /\
    st' !! root = Some n /\ parent n = None /\
    role n = VStr "user" /\ content n = VStr "hello" /\
    (is_empty n = true <-> VStr "user" = VStr "empty" /\ VStr "hello" = VStr "") /\
    build_messages (length st') st' root
      = Some (if is_empty n then [] else [mkMessage (VStr "user") (VStr "hello")]).
Proof.
  apply (from_dict_returns_root
           (<["role" := VStr "user"]> (<["content" := VStr "hello"]> ∅))
           (Some [PDict (<["role" := VStr "assistant"]>
                           (<["content" := VStr "hi there"]>
                              (<["stop_reason" := VStr "end_turn"]> ∅)))
                        None])
           (VStr "user") (VStr "hello") []).
  - vm_compute; reflexivity.
  - vm_compute; reflexivity.
  - vm_compute; reflexivity.
Defined.

Lemma count_tree fuel : forall st i t,
  tree_of fuel st i = Some t -> NodeCount.count_recursive fuel st i = Some (tsize t).
Proof.
  induction fuel as [|f IH]; intros st i t; simpl; [done|].
  destruct (st !! i) as [n|]; [|done].
  destruct (mapM (tree_of f st) (replies n)) as [kids|] eqn:Hm; [|done].
  intros [= <-]. apply mapM_Some_1 in Hm.
  assert (mapM (NodeCount.count_recursive f st) (replies n) = Some (map tsize kids))
    as ->; [|done].
  apply mapM_Some_2. induction Hm; simpl; constructor; auto.
Qed.

(** X8: [node_count] returns on every well-formed store and counts the
    whole conversation: the node it counts from has no parent and heads
    the parent path that ends in the node asked, and the result is the
    number of nodes of the tree below it; a serialization round trip
    keeps that number. *)
Theorem node_count_size st i :
  well_formed st = true -> i < length st ->
  exists root m path t d st',
    find_root (length st) st i = Some root /\
    st !! root = Some m /\ parent m = None /\
    root_path st path i /\ head path = Some root /\
    tree_of (length st) st root = Some t /\
    NodeCount.node_count (length st) st i = Some (tsize t) /\
    root_dict (length st) st i = Some d /\
    from_dict d st = Ok (st', length st) /\
    NodeCount.node_count (length st') st' (length st) = Some (tsize t).
Proof.
  intros Hwf Hi.
  destruct (lookup_lt_is_Some_2 st i Hi) as [n Hn].
  destruct (find_root_path (length st) st i n (well_formed_parents_older st Hwf) Hn Hi)
    as (root & m & path & Hroot & Hm & Hpm & Hle & Hpath & Hhead).
  assert (root < length st) as Hlt by lia.
  destruct (tree_of_total (length st) st root Hwf Hlt ltac:(lia)) as (t & Ht & Hok).
  exists root, m, path, t, (dict_of t), (st ++ layout (plain t) (length st) None).
  do 6 (split; [done|]). split.
  { unfold NodeCount.node_count. rewrite Hroot. by apply count_tree. }
  split. { unfold root_dict. rewrite Hroot. by apply to_dict_tree. }
  split; [by apply from_dict_layout|].
  set (st' := st ++ layout (plain t) (length st) None).
  assert (linked (length st') st' (length st) None = Some (plain t)) as Hlinked.
  { pose proof (linked_layout (plain t) st None [] (length st')) as H.
    rewrite app_nil_r in H. apply H. unfold st'.
    rewrite length_app, length_layout. lia. }
  unfold NodeCount.node_count.
  rewrite (linked_find_root _ _ _ _ Hlinked).
  rewrite (count_tree _ _ _ _ (linked_tree_of _ _ _ _ _ Hlinked)).
  by rewrite tsize_plain.
Qed.

Lemma node_count_size_witness :
  exists root m path t d st',
    find_root (length branching_store) branching_store 3 = Some root /\
    branching_store !! root = Some m /\ parent m = None /\
    root_path branching_store path 3 /\ head path = Some root /\
    tree_of (length branching_store) branching_store root = Some t /\
    NodeCount.node_count (length branching_store) branching_store 3 = Some (tsize t) /\
    root_dict (length branching_store) branching_store 3 = Some d /\
    from_dict d branching_store = Ok (st', length branching_store) /\
    NodeCount.node_count (length st') st' (length branching_store) = Some (tsize t).
Proof.
  apply (node_count_size branching_store 3).
  - vm_compute; reflexivity.
  - vm_compute; lia.
Defined.

(** From the leaf of the first branch the count is that of the whole
    conversation. *)
Example node_count_from_leaf :
  NodeCount.node_count (length branching_store) branching_store 3 = Some 4.
Proof. vm_compute; reflexivity. Qed.

End Records.

(** ** Where the content merge fails *)

Section MergeErrors.
Import Merge.

Lemma split_last_last e front l :
  split_last e = Some (front, l) -> last e = Some l.
Proof.
  intros Hs. pose proof (split_last_snoc e) as H. rewrite Hs in H. subst e.
  apply last_snoc.
Qed.

Lemma boundary_segment_defined seg :
  segment_ok seg = true <->
  exists ty, subscript seg "type" = Ok ty /\
    (is_text ty = true -> exists t, subscript seg "text" = Ok (VStr t)).
Proof.
  unfold segment_ok, subscript. destruct seg as [| | | | |kv| |];
    try (split; [done|by intros (? & ? & _)]).
  destruct (dict_get "type" kv) as [ty|]; [|split; [done|by intros (? & ? & _)]].
  split.
  - intros H. exists ty. split; [done|]. intros Ht. rewrite Ht in H.
    destruct (dict_get "text" kv) as [[]|]; try done. eauto.
  - intros (ty' & [= <-] & H). destruct (is_text ty); [|done].
    destruct (H eq_refl) as [t Ht]. destruct (dict_get "text" kv); [|done].
    by injection Ht as ->.
Qed.

(** X9: [merge_content] returns a content exactly when both sides are a str
    or a list and the one segment at the junction, if there is one, is a
    dict with a 'type' and, for type 'text', a str 'text'.  No other
    segment is looked at. *)
Theorem merge_content_defined a b :
  (exists m, merge_content a b = Ok m) <->
  str_or_list a = true /\ str_or_list b = true /\
  (forall seg, boundary a b = Some seg -> segment_ok seg = true).
Proof.
  destruct a as [| | |e|e| | |]; destruct b as [| | |n|n| | |];
    try (split; [by intros [? ?]|by intros (? & ? & _)]).
  - split; [|by eexists]. intros _. split; [done|]. split; [done|]. by intros.
  - cbn [merge_content boundary str_or_list]. destruct n as [|first rest].
    { split; [|by eexists]. intros _. do 2 (split; [done|]). by intros. }
    cbn [head]. split.
    + intros [m Hm]. do 2 (split; [done|]). intros seg [= <-].
      apply boundary_segment_defined.
      destruct (subscript first "type") as [ty|] eqn:Hty; [|done].
      exists ty. split; [done|]. intros Ht. rewrite Ht in Hm.
      destruct (subscript first "text") as [t|] eqn:Htx; [|done].
      destruct t; try done. eauto.
    + intros (_ & _ & H). specialize (H first eq_refl).
      apply boundary_segment_defined in H as (ty & -> & Ht).
      destruct (is_text ty) eqn:Hty; [|by eexists].
      destruct (Ht eq_refl) as [t ->]. by eexists.
  - cbn [merge_content boundary str_or_list].
    destruct (split_last e) as [[front l]|] eqn:Hs.
    2:{ pose proof (split_last_snoc e) as H. rewrite Hs in H. subst e.
        split; [|by eexists]. intros _. do 2 (split; [done|]). by intros. }
    rewrite (split_last_last _ _ _ Hs). split.
    + intros [m Hm]. do 2 (split; [done|]). intros seg [= <-].
      apply boundary_segment_defined.
      destruct (subscript l "type") as [ty|] eqn:Hty; [|done].
      exists ty. split; [done|]. intros Ht. rewrite Ht in Hm.
      destruct (subscript l "text") as [t|] eqn:Htx; [|done].
      destruct t; try done. eauto.
    + intros (_ & _ & H). specialize (H l eq_refl).
      pose proof H as Hok.
      apply boundary_segment_defined in H as (ty & Hty & Ht).
      rewrite Hty. destruct (is_text ty) eqn:Htext; [|by eexists].
      destruct (Ht eq_refl) as [t Htx]. rewrite Htx. simpl.
      destruct l; try done. by eexists.
  - split; [|by eexists]. intros _. do 2 (split; [done|]). by intros.
Qed.

(** X10: the ValueError of the last branch is raised exactly when one of the
    two contents is neither a str nor a list. *)
Theorem merge_content_value_error a b :
  merge_content a b = Raise (ValueError "Unexpected content types") <->
  str_or_list a = false \/ str_or_list b = false.
Proof.
  destruct a as [| | |e|e| | |]; destruct b as [| | |n|n| | |];
    try (split; [intros _; (by left) || (by right)|by intros _]).
  - split; [done|by intros [|]].
  - split; [|by intros [|]]. cbn [merge_content]. destruct n as [|first rest]; [done|].
    destruct (subscript first "type") as [ty|[]] eqn:Hty; try done.
    + destruct (is_text ty); [|done].
      destruct (subscript first "text") as [t|[]] eqn:Ht; try done.
      * destruct t; done.
      * unfold subscript in Ht. destruct first; try done.
        destruct (dict_get "text" _); done.
    + unfold subscript in Hty. destruct first; try done.
      destruct (dict_get "type" _); done.
  - split; [|by intros [|]]. cbn [merge_content].
    destruct (split_last e) as [[front l]|]; [|done].
    destruct (subscript l "type") as [ty|[]] eqn:Hty; try done.
    + destruct (is_text ty); [|done].
      destruct (subscript l "text") as [t|[]] eqn:Ht; try done.
      * destruct t; try done. destruct l; done.
      * unfold subscript in Ht. destruct l; try done.
        destruct (dict_get "text" _); done.
    + unfold subscript in Hty. destruct l; try done.
      destruct (dict_get "type" _); done.
  - split; [done|by intros [|]].
Qed.

End MergeErrors.
(** ** Registering tools *)

Section Registering.
Context {W : Type}.

Lemma dict_set_fresh k v kv :
  dict_get k kv = None -> dict_set k v kv = kv ++ [(k, v)].
Proof.
  induction kv as [|[k' v'] kv IH]; simpl; [done|].
  destruct (String.eqb k k'); [done|]. intros H. by rewrite IH.
Qed.

Lemma dict_get_app_fresh k k' v kv :
  k <> k' -> dict_get k kv = None -> dict_get k (kv ++ [(k', v)]) = None.
Proof.
  intros Hne. induction kv as [|[k2 v2] kv IH]; simpl.
  - by apply String.eqb_neq in Hne as ->.
  - destruct (String.eqb k k2); [done|]. apply IH.
Qed.

Lemma schema_loop_spec (params : list (string * bool)) : forall properties required,
  NoDup (map fst params) ->
  (forall p, p ∈ map fst params -> dict_get p properties = None) ->
  Schema.schema_loop params properties required =
  (properties ++ map string_property params, required ++ required_names params).
Proof.
  induction params as [|[name d] params IH]; intros properties required Hnd Hfresh.
  - simpl. by rewrite !app_nil_r.
  - simpl in Hnd. apply NoDup_cons in Hnd as [Hnotin Hnd]. cbn [Schema.schema_loop].
    rewrite dict_set_fresh by (apply Hfresh; simpl; left).
    rewrite IH; [| done |].
    + unfold required_names. cbn [map List.filter negb fst snd].
      rewrite <- !app_assoc. destruct d; simpl; by rewrite <- ?app_assoc.
    + intros p Hp. apply dict_get_app_fresh.
      * intros ->. done.
      * apply Hfresh. simpl. by right.
Qed.

Lemma add_tool_unfold (h : TH.handler W) (func : Schema.pyfunc W) :
  Schema.add_tool h func =
  TH.mkHandler (TH.tools h ++ [Schema.tool_schema func])
               (<[Schema.fn_name func := Schema.fn_call func]> (TH.function_map h))
               (TH.requests h) (TH.results h).
Proof. reflexivity. Qed.

Lemma last_named_snoc name (functions : list (Schema.pyfunc W)) func :
  last_named name (functions ++ [func]) =
  if String.eqb (Schema.fn_name func) name then Some func
  else last_named name functions.
Proof.
  unfold last_named. rewrite List.filter_app. simpl.
  destruct (String.eqb (Schema.fn_name func) name).
  - by rewrite last_snoc.
  - by rewrite app_nil_r.
Qed.

Lemma add_tools_spec (functions : list (Schema.pyfunc W)) : forall h,
  TH.tools (Schema.add_tools h functions) =
    TH.tools h ++ map Schema.tool_schema functions /\
  TH.requests (Schema.add_tools h functions) = TH.requests h /\
  TH.results (Schema.add_tools h functions) = TH.results h /\
  forall name,
    TH.function_map (Schema.add_tools h functions) !! name =
    match last_named name functions with
    | Some func => Some (Schema.fn_call func)
    | None => TH.function_map h !! name
    end.
Proof.
  induction functions as [|func functions IH] using rev_ind; intros h.
  - simpl. by rewrite app_nil_r.
  - unfold Schema.add_tools in *. rewrite fold_left_app. cbn [fold_left].
    destruct (IH h) as (Ht & Hrq & Hrs & Hfm). rewrite add_tool_unfold.
    cbn [TH.tools TH.requests TH.results TH.function_map].
    rewrite Ht, map_app, <- app_assoc. repeat split; try done.
    intros name. rewrite last_named_snoc.
    destruct (String.eqb_spec (Schema.fn_name func) name) as [->|Hne].
    + by rewrite lookup_insert_eq.
    + rewrite lookup_insert_ne by done. apply Hfm.
Qed.

(** X11: the schema [generate_tool_schema] builds for a function lists
    every parameter, in order, as a string property, and requires the
    parameters without a default. *)
Theorem tool_schema_parameters (func : Schema.pyfunc W) :
  NoDup (map fst (Schema.fn_params func)) ->
  Schema.tool_schema func =
  VDict [("name", VStr (Schema.fn_name func));
         ("description", VStr (Schema.description func));
         ("input_schema",
          VDict [("type", VStr "object");
                 ("properties", VDict (map string_property (Schema.fn_params func)));
                 ("required", VList (required_names (Schema.fn_params func)))])].
Proof.
  intros Hnd. unfold Schema.tool_schema.
  by rewrite schema_loop_spec.
Qed.

(** X12: after [add_tools_from_file]'s loop the handler lists one schema
    per function added, duplicates included, after those it had; the
    function map answers each name with the last function added under
    it, and other names as before; the request and result buffers are
    untouched. *)
Theorem add_tools_registers (h : TH.handler W) (functions : list (Schema.pyfunc W)) :
  TH.tools (Schema.add_tools h functions) =
    TH.tools h ++ map Schema.tool_schema functions /\
  TH.requests (Schema.add_tools h functions) = TH.requests h /\
  TH.results (Schema.add_tools h functions) = TH.results h /\
  forall name,
    TH.function_map (Schema.add_tools h functions) !! name =
    match last_named name functions with
    | Some func => Some (Schema.fn_call func)
    | None => TH.function_map h !! name
    end.
Proof. apply add_tools_spec. Qed.

(** X13: a tool-use block that names a function added to the handler runs
    the last function added under that name on the block's input; its
    output is paired with the block's id, and an exception it raises
    leaves the buffers empty. *)
Theorem add_tools_dispatch (h : TH.handler W) (functions : list (Schema.pyfunc W))
    (func : Schema.pyfunc W) (id name : string) (input : list (string * value)) (w : W) :
  last_named name functions = Some func ->
  let h' := Schema.add_tools h functions in
  TH.handle_response h' [TH.ToolUseBlock id name input] w =
  match Schema.fn_call func input w with
  | (Ok out, w') =>
      (Ok ([tool_use id name input], [tool_result id out]),
       TH.mkHandler (TH.tools h') (TH.function_map h')
                    [tool_use id name input] [tool_result id out], w')
  | (Raise e, w') => (Raise e, TH.clear h', w')
  end.
Proof.
  intros Hlast h'. unfold TH.handle_response.
  cbn [TH.generate_request_schema TH.dispatch_loop].
  change (TH.tool_name_and_input _) with
    (@Ok (value * value) (VStr name, VDict input)).
  cbn iota beta. unfold TH.call_tool. cbn [TH.clear TH.function_map].
  destruct (add_tools_spec functions h) as (_ & _ & _ & Hfm).
  subst h'. rewrite Hfm, Hlast.
  destruct (Schema.fn_call func input w) as [[out|e] w']; reflexivity.
Qed.

End Registering.

Lemma tool_schema_parameters_witness :
  Schema.tool_schema shout =
  VDict [("name", VStr "say");
         ("description", VStr "Say it loudly.");
         ("input_schema",
          VDict [("type", VStr "object");
                 ("properties", VDict [("text", VDict [("type", VStr "string")]);
                                       ("times", VDict [("type", VStr "string")])]);
                 ("required", VList [VStr "text"])])].
Proof.
  apply (tool_schema_parameters shout). simpl.
  apply (bool_decide_unpack _). vm_compute. exact I.
Defined.

Lemma add_tools_dispatch_witness :
  (TH.handle_response (Schema.add_tools add_handler [shout; whisper])
     [TH.ToolUseBlock "t1" "say" []] []).1.1 =
  Ok ([tool_use "t1" "say" []], [tool_result "t1" (VStr "quiet")]).
Proof.
  rewrite (add_tools_dispatch add_handler [shout; whisper] whisper "t1" "say" [] []
             eq_refl).
  reflexivity.
Defined.

(** ** The trace of the retry loop, and building a payload twice *)

Section RetryTrace.
Import AM.
Context {R : Type}.

Lemma first_final_attempt (create : nat -> create_dict -> result R) payload n :
  fails_first create payload n \/
  exists k, k < n /\ fails_first create payload k /\
            retried (create k payload) = false.
Proof.
  induction n as [|n [IH|(k & Hk & Hf & Hr)]].
  - left. intros a Ha. lia.
  - destruct (retried (create n payload)) eqn:Hr.
    + left. intros a Ha. destruct (decide (a = n)) as [->|Hne].
      * destruct (create n payload) as [r|e]; [done|]. by exists e.
      * apply IH. lia.
    + right. exists n. split; [lia|]. by split.
  - right. exists k. split; [lia|]. by split.
Qed.

Lemma send_with_retry_shape (create : nat -> create_dict -> result R) payload :
  exists k,
    k < max_retries /\ fails_first create payload k /\
    (retried (create k payload) = true -> k = max_retries - 1) /\
    send_with_retry create payload =
      (create k payload,
       mkTrace (S k) (backoff k)
               (if retried (create k payload) then Some payload else None)).
Proof.
  destruct (first_final_attempt create payload (max_retries - 1))
    as [Hf|(k & Hk & Hf & Hr)].
  - exists (max_retries - 1). split; [unfold max_retries; lia|].
    split; [done|]. split; [done|].
    rewrite (retry_loop_prefix _ _ (max_retries - 1) Hf)
      by (unfold max_retries; lia).
    change (max_retries - (max_retries - 1)) with 1.
    cbn [seq retry_loop attempts delays debug_printed].
    destruct (create (max_retries - 1) payload) as [r|e]; [done|].
    cbn [retried]. destruct (transient e); [|done].
    by rewrite Nat.eqb_refl.
  - exists k. split; [lia|]. split; [done|]. split; [by rewrite Hr|].
    rewrite (retry_loop_prefix _ _ k Hf) by lia.
    destruct (max_retries - k) as [|m] eqn:Hm; [lia|].
    cbn [seq retry_loop attempts delays debug_printed]. rewrite Hr.
    destruct (create k payload) as [r|e]; [done|].
    cbn [retried] in Hr. by rewrite Hr.
Qed.

Lemma total_backoff k : foldr Z.add 0%Z (backoff k) = (2 ^ Z.of_nat k - 1)%Z.
Proof.
  unfold backoff. induction k as [|k IH]; [done|].
  rewrite seq_S, map_app, foldr_app. cbn [map foldr Nat.add].
  assert (forall (l : list Z) (z : Z), foldr Z.add z l = (foldr Z.add 0 l + z)%Z) as Hshift.
  { induction l as [|x l IHl]; intros z; simpl; [lia|]. rewrite IHl. lia. }
  rewrite Hshift, IH. unfold base_delay.
  rewrite Nat2Z.inj_succ, Z.pow_succ_r by lia. lia.
Qed.

(** X14: whatever the provider does, [send_with_retry] makes at most 25
    calls and ends with the provider's own answer to the last call made,
    a response or an exception; every earlier call raised an exception
    of a retried class.  The exception of line 152 is never raised, and
    the payload is printed only when call 25 fails with a retried
    class. *)
Theorem send_with_retry_last_answer (create : nat -> create_dict -> result R)
                                    (payload : create_dict) :
  exists k,
    k < max_retries /\ fails_first create payload k /\
    (retried (create k payload) = true -> k = max_retries - 1) /\
    send_with_retry create payload =
      (create k payload,
       mkTrace (S k) (backoff k)
               (if retried (create k payload) then Some payload else None)).
Proof. apply send_with_retry_shape. Qed.

(** X15: the back-off doubles: after [n] calls the loop has slept
    [2 ^ (n - 1) - 1] seconds (jitter apart), so never more than
    [2 ^ 24 - 1] seconds, whatever the provider does. *)
Theorem send_with_retry_total_delay (create : nat -> create_dict -> result R)
                                    (payload : create_dict) :
  let tr := (send_with_retry create payload).2 in
  total_delay tr = (2 ^ Z.of_nat (attempts tr - 1) - 1)%Z /\
  (total_delay tr <= 16777215)%Z.
Proof.
  destruct (send_with_retry_shape create payload) as (k & Hk & _ & _ & ->).
  cbn [snd attempts]. unfold total_delay. cbn [delays].
  rewrite total_backoff. replace (S k - 1) with k by lia. split; [done|].
  assert (2 ^ Z.of_nat k <= 2 ^ 24)%Z; [|lia].
  apply Z.pow_le_mono_r; unfold max_retries in *; lia.
Qed.

End RetryTrace.

Section PayloadAgain.
Import CN TH AM.
Context {W : Type}.

(** X16: building the payload a second time, as a retry of the whole send
    does, gives the same payload and changes nothing: the first build
    emptied the buffers, so nothing is spliced twice. *)
Theorem build_payload_idempotent fuel st (tool_handler : option (handler W))
    conversation model max_tokens temperature system_message
    payload st' tool_handler' :
  build_payload fuel st tool_handler conversation model max_tokens temperature
                system_message = Some (Ok payload, st', tool_handler') ->
  build_payload fuel st' tool_handler' conversation model max_tokens temperature
                system_message = Some (Ok payload, st', tool_handler').
Proof.
  unfold build_payload.
  destruct (splice_requests st conversation _) as [st1|e]; [|done].
  destruct (splice_results st1 conversation _) as [st2|e]; [|done].
  destruct (build_messages fuel st2 conversation) as [messages|] eqn:Hm; [|done].
  intros [= <- <- <-].
  destruct tool_handler as [h|]; cbn [fmap option_fmap option_map clear requests results
    splice_requests splice_results tools function_map]; by rewrite Hm.
Qed.

End PayloadAgain.

Lemma build_payload_idempotent_witness :
  exists payload st',
    AM.build_payload 3 tool_store (Some pending_handler) 2 (VStr "m") (VInt 10)
      (VInt 0) None = Some (Ok payload, st', Some (TH.clear pending_handler)) /\
    st' <> tool_store /\
    AM.build_payload 3 st' (Some (TH.clear pending_handler)) 2 (VStr "m") (VInt 10)
      (VInt 0) None = Some (Ok payload, st', Some (TH.clear pending_handler)).
Proof.
  do 2 eexists. split; [vm_compute; reflexivity|]. split; [vm_compute; discriminate|].
  apply (build_payload_idempotent 3 tool_store (Some pending_handler) 2).
  vm_compute. reflexivity.
Defined.

(** ** One turn of the agent *)

Section Agent.
Import Bot.
Context {W X : Type}.

Lemma sends_app (b : bot W X) l e :
  log b = l ++ [e] ->
  sends b = length (List.filter (fun e => match e with OUTGOING _ => true | _ => false end) l)
            + (match e with OUTGOING _ => 1 | _ => 0 end).
Proof.
  intros H. unfold sends. rewrite H, List.filter_app, length_app.
  by destruct e.
Qed.

Lemma conversation_add_reply_log c r kw (b : bot W X) res b' :
  conversation_add_reply c r kw b = Some (res, b') -> log b' = log b.
Proof.
  unfold conversation_add_reply.
  destruct (conversation b) as [cur|]; [|by intros [= <- <-]].
  case_bool_decide; [by intros [= <- <-]|].
  destruct (CN.add_reply _ _ _ _ _) as [[st' new]|]; [|done].
  by intros [= <- <-].
Qed.

Lemma send_message_sends (tr : transport W X) b res b' :
  keeps_log tr ->
  send_message tr b = Some (res, b') ->
  sends b <= sends b' <= S (sends b).
Proof.
  intros Hlog. unfold send_message.
  destruct (conversation b) as [c|]; [|intros [= <- <-]; lia].
  destruct (CN.build_messages _ _ _) as [messages|]; [|done].
  pose proof (Hlog (with_log b (log b ++ [OUTGOING messages]))) as Hl.
  destruct (tr _) as [[[[text rr] extra]|e] b2]; intros [= <- <-];
    cbn [snd log with_log] in Hl.
  - unfold sends. cbn [log with_log].
    rewrite Hl, !List.filter_app, !length_app. simpl. lia.
  - unfold sends. rewrite Hl, List.filter_app, length_app. simpl. lia.
Qed.

Lemma cvsn_respond_sends (tr : transport W X) text r b res b' :
  keeps_log tr ->
  _cvsn_respond tr text r b = Some (res, b') ->
  sends b <= sends b' <= S (sends b).
Proof.
  intros Hlog. unfold _cvsn_respond, mbind, M_bind.
  assert (forall b0, sends b0 = sends b ->
    bind (send_message tr) (fun '(response_text, response_role, extra_data) =>
        bind (conversation_add_reply (VStr response_text) response_role extra_data)
             (fun _ => ret response_text)) b0 = Some (res, b') ->
    sends b <= sends b' <= S (sends b)) as Hrest.
  { intros b0 Hb0. unfold bind.
    destruct (send_message tr b0) as [[[[[t rr] extra]|e] b1]|] eqn:Hs; [| |done].
    - apply (send_message_sends _ _ _ _ Hlog) in Hs.
      destruct (conversation_add_reply _ _ _ b1) as [[[[]|e] b2]|] eqn:Ha; [| |done].
      + apply conversation_add_reply_log in Ha. unfold ret. intros [= <- <-].
        unfold sends in *. rewrite Ha. lia.
      + apply conversation_add_reply_log in Ha. intros [= <- <-].
        unfold sends in *. rewrite Ha. lia.
    - apply (send_message_sends _ _ _ _ Hlog) in Hs. intros [= <- <-]. lia. }
  assert (forall t,
    bind (conversation_add_reply (VStr t) r ∅) (fun _ =>
     bind (send_message tr) (fun '(response_text, response_role, extra_data) =>
        bind (conversation_add_reply (VStr response_text) response_role extra_data)
             (fun _ => ret response_text))) b = Some (res, b') ->
    sends b <= sends b' <= S (sends b)) as Hsome.
  { intros t. unfold bind at 1.
    destruct (conversation_add_reply (VStr t) r ∅ b) as [[[[]|e] b0]|] eqn:Ha; [| |done].
    - apply conversation_add_reply_log in Ha. apply Hrest. unfold sends. by rewrite Ha.
    - apply conversation_add_reply_log in Ha. intros [= <- <-].
      unfold sends. rewrite Ha. lia. }
  destruct (conversation b) as [c|], text as [t|]; try apply Hsome.
  - unfold bind at 1. unfold ret at 1. by apply Hrest.
  - intros [= <- <-]. lia.
Qed.

Lemma auto_loop_sends (tr : transport W X) r fuel :
  keeps_log tr ->
  forall counter total b res b',
  auto_loop fuel tr r counter total b = Some (res, b') ->
  sends b <= sends b' <= sends b + (max_tool_prompts - counter).
Proof.
  intros Hlog. induction fuel as [|fuel IH]; intros counter total b res b'.
  - simpl. destruct (Nat.ltb counter max_tool_prompts); [done|].
    intros [= <- <-]. lia.
  - cbn [auto_loop].
    destruct (Nat.ltb counter max_tool_prompts) eqn:Hlt; [|intros [= <- <-]; lia].
    apply Nat.ltb_lt in Hlt.
    destruct (pending_requests b) as [requests|e]; [|intros [= <- <-]; lia].
    destruct (truthy requests); [|intros [= <- <-]; lia].
    unfold mbind, M_bind, bind.
    destruct (_cvsn_respond tr _ r b) as [[[response|e] b1]|] eqn:Hr; [| |done].
    + apply (cvsn_respond_sends _ _ _ _ _ _ Hlog) in Hr.
      intros Hloop. apply IH in Hloop. lia.
    + apply (cvsn_respond_sends _ _ _ _ _ _ Hlog) in Hr. intros [= <- <-]. lia.
Qed.

(** X17: one call of [respond] sends at most eight times when [tool_auto]
    is set and at most once otherwise, whatever the provider answers and
    however the call ends. *)
Theorem respond_sends_bounded (tr : transport W X) content r tool_auto b res b' :
  keeps_log tr ->
  respond tr content r tool_auto b = Some (res, b') ->
  sends b <= sends b' /\
  sends b' <= sends b + (if tool_auto then max_tool_prompts else 1).
Proof.
  intros Hlog. unfold respond. destruct tool_auto.
  - unfold _respond_auto, mbind, M_bind, bind.
    destruct (_cvsn_respond tr _ r b) as [[[response|e] b1]|] eqn:Hr; [| |done].
    + apply (cvsn_respond_sends _ _ _ _ _ _ Hlog) in Hr.
      intros Hloop. apply (auto_loop_sends _ _ _ Hlog) in Hloop.
      unfold max_tool_prompts in *. lia.
    + apply (cvsn_respond_sends _ _ _ _ _ _ Hlog) in Hr. intros [= <- <-].
      unfold max_tool_prompts. lia.
  - intros Hr. apply (cvsn_respond_sends _ _ _ _ _ _ Hlog) in Hr. lia.
Qed.

Lemma add_reply_defined st self c r kw :
  self < length st -> exists st' new, CN.add_reply st self c r kw = Some (st', new).
Proof.
  intros Hlt. apply lookup_lt_is_Some in Hlt as [n Hn].
  unfold CN.add_reply. rewrite Hn. destruct (CN.is_empty n); eauto.
Qed.

Lemma not_sentinel c r kw old :
  r <> VStr "empty" \/ c <> VStr "" -> CN.is_empty (CN.init old c r kw) = false.
Proof.
  intros H. destruct (CN.is_empty _) eqn:He; [|done].
  apply is_empty_values in He as [Hr Hc]. simpl in Hr, Hc. by destruct H.
Qed.

(** X18: on a tree whose parent links point to older objects, with a
    transport that leaves tree and log alone, and for a user turn that
    does not have the values of the empty sentinel, [_cvsn_respond]
    always returns.  The send carries the history so far and the user
    turn.  If the call raises, the history has grown by the user turn
    only; if it returns the reply text, the log has gained the send and
    the reply, and, unless the reply has the values of the empty
    sentinel, the history has grown by the user turn and the reply. *)
Theorem cvsn_respond_history (tr : transport W X) (b : bot W X) cur t r :
  keeps_log tr -> keeps_tree tr ->
  conversation b = Some cur -> cur < length (st b) -> acyclic (st b) = true ->
  r <> VStr "empty" \/ VStr t <> VStr "" ->
  exists msgs res b',
    history b = Some msgs /\
    _cvsn_respond tr (Some t) r b = Some (res, b') /\
    let sent := msgs ++ [CN.mkMessage r (VStr t)] in
    match res with
    | Raise e =>
        history b' = Some sent /\
        exists rest, log b' = log b ++ OUTGOING sent :: rest
    | Ok text =>
        exists response_role extra_data,
          log b' = log b ++ [OUTGOING sent; INCOMING text response_role extra_data] /\
          (response_role <> VStr "empty" \/ VStr text <> VStr "" ->
           history b' = Some (sent ++ [CN.mkMessage response_role (VStr text)]))
    end.
Proof.
  intros Hlog Htree Hcur Hlt Hacyc Huser.
  apply acyclic_parents_older in Hacyc.
  destruct (add_reply_defined (st b) cur (VStr t) r ∅ Hlt) as (st_u & cur_u & Hadd).
  destruct (add_reply_history _ _ _ _ _ _ _ Hacyc Hadd (not_sentinel _ _ _ _ Huser))
    as (msgs & Hmsgs & Hsent).
  pose proof (add_reply_parents_older _ _ _ _ _ _ _ Hacyc Hadd) as Hacyc_u.
  destruct (add_reply_node _ _ _ _ _ _ _ Hadd) as (n_u & Hn_u & _).
  pose proof (lookup_lt_Some _ _ _ Hn_u) as Hlt_u.
  exists msgs.
  unfold _cvsn_respond, mbind, M_bind. rewrite Hcur.
  unfold bind at 1. unfold conversation_add_reply at 1. rewrite Hcur.
  rewrite bool_decide_eq_false_2
    by (rewrite !lookup_empty; intros [[? ?]|[? ?]]; discriminate).
  rewrite Hadd. unfold bind at 1. unfold send_message.
  cbn [conversation with_tree st log]. rewrite Hsent.
  set (b1 := with_log _ _).
  destruct (Htree b1) as [Hst2 Hc2]. pose proof (Hlog b1) as Hlog2.
  destruct (tr b1) as [[[[text rr] extra]|e] b2]; cbn [snd] in Hst2, Hc2, Hlog2;
    subst b1; cbn [st conversation log with_log with_tree] in Hst2, Hc2, Hlog2.
  - unfold bind, conversation_add_reply. cbn [conversation with_log st].
    rewrite Hc2, Hst2.
    case_bool_decide as Hkw.
    + eexists _, _. split; [unfold history; by rewrite Hcur|]. split; [done|].
      cbn beta zeta. split.
      * unfold history. cbn [conversation st with_log]. by rewrite Hc2, Hst2.
      * cbn [log with_log]. rewrite Hlog2, <- app_assoc. by eexists.
    + destruct (add_reply_defined st_u cur_u (VStr text) rr extra Hlt_u)
        as (st_r & cur_r & Hreply).
      rewrite Hreply. unfold ret.
      eexists _, _. split; [unfold history; by rewrite Hcur|]. split; [done|].
      cbn beta zeta. exists rr, extra. split.
      * cbn [log with_log with_tree]. rewrite Hlog2. by rewrite <- app_assoc.
      * intros Hreal. unfold history. cbn [conversation st with_tree].
        destruct (add_reply_history _ _ _ _ _ _ _ Hacyc_u Hreply
                    (not_sentinel _ _ _ _ Hreal)) as (msgs' & Hm' & Hfinal).
        rewrite Hsent in Hm'. injection Hm' as <-. done.
  - eexists _, _. split; [unfold history; by rewrite Hcur|]. split; [done|].
    cbn beta zeta. split.
    + unfold history. by rewrite Hc2, Hst2.
    + rewrite Hlog2. by exists [].
Qed.

End Agent.

Lemma respond_sends_bounded_witness :
  exists res b',
    Bot.respond attributes_transport "hello" (VStr "user") true fresh_bot
      = Some (res, b') /\
    Bot.sends fresh_bot <= Bot.sends b' /\
    Bot.sends b' <= Bot.sends fresh_bot + Bot.max_tool_prompts.
Proof.
  eexists _, _. split; [vm_compute; reflexivity|].
  eapply (respond_sends_bounded attributes_transport "hello" (VStr "user") true fresh_bot).
  - intros b. reflexivity.
  - vm_compute; reflexivity.
Defined.

Lemma cvsn_respond_history_witness :
  exists msgs res b',
    history fresh_bot = Some msgs /\
    Bot._cvsn_respond requesting_transport (Some "hello") (VStr "user") fresh_bot
      = Some (res, b') /\
    let sent := msgs ++ [CN.mkMessage (VStr "user") (VStr "hello")] in
    match res with
    | Raise e =>
        history b' = Some sent /\
        exists rest, Bot.log b' = Bot.log fresh_bot ++ Bot.OUTGOING sent :: rest
    | Ok text =>
        exists response_role extra_data,
          Bot.log b' = Bot.log fresh_bot ++
            [Bot.OUTGOING sent; Bot.INCOMING text response_role extra_data] /\
          (response_role <> VStr "empty" \/ VStr text <> VStr "" ->
           history b' = Some (sent ++ [CN.mkMessage response_role (VStr text)]))
    end.
Proof.
  apply (cvsn_respond_history requesting_transport fresh_bot 0 "hello" (VStr "user")).
  - intros b. reflexivity.
  - intros b. split; reflexivity.
  - reflexivity.
  - vm_compute; lia.
  - vm_compute; reflexivity.
  - left. discriminate.
Defined.

(** ** Engine names *)

Section EngineNames.



End EngineNames.
